(** * The model layer of the problem catalog (src/model.py)

    A shallow embedding of the two persisted stores (the Index, a
    dictionary keyed by source; the Cache, a list of entries), of the
    entry ordering, of the search filters and of the rebuild loop,
    followed by the properties proved about them. *)

From Stdlib Require Import String Ascii ZArith List Lia Bool Permutation Sorted DecimalString.
From Stdlib Require Import DecimalPos.
From stdpp Require Import base list strings gmap.

Local Open Scope string_scope.
Local Open Scope list_scope.
Local Open Scope stdpp_scope.
Local Open Scope Z_scope.

(** ** Python values and built-ins that model.py relies on *)

(** Exceptions that the modelled code can raise. *)
Inductive exn := IndexError | KeyError | TypeError.

Inductive result (A : Type) :=
| Ok (a : A)
| Raise (e : exn).
Arguments Ok {A} a.
Arguments Raise {A} e.

(** A [str] is taken as ASCII text: a [string], compared character by
    character by code point as Python does. The methods below are given
    on those characters. *)
Definition is_upper (c : ascii) : bool :=
  ((65 <=? nat_of_ascii c) && (nat_of_ascii c <=? 90))%nat.

Definition is_lower (c : ascii) : bool :=
  ((97 <=? nat_of_ascii c) && (nat_of_ascii c <=? 122))%nat.

Definition lower_char (c : ascii) : ascii :=
  if is_upper c then ascii_of_nat (nat_of_ascii c + 32) else c.

Definition upper_char (c : ascii) : ascii :=
  if is_lower c then ascii_of_nat (nat_of_ascii c - 32) else c.

(** [s.lower()] and [s.upper()], on the letters A-Z and a-z. *)
Fixpoint lower (s : string) : string :=
  match s with
  | EmptyString => EmptyString
  | String c s' => String (lower_char c) (lower s')
  end.

Fixpoint upper (s : string) : string :=
  match s with
  | EmptyString => EmptyString
  | String c s' => String (upper_char c) (upper s')
  end.

(** Characters removed by [s.strip()]: tab, newline, vertical tab, form
    feed, carriage return, the separators 28-31 and the space. *)
Definition is_space (c : ascii) : bool :=
  let n := nat_of_ascii c in
  (((9 <=? n) && (n <=? 13)) || ((28 <=? n) && (n <=? 32)))%nat.

Fixpoint lstrip (s : string) : string :=
  match s with
  | EmptyString => EmptyString
  | String c s' => if is_space c then lstrip s' else s
  end.

Fixpoint rstrip (s : string) : string :=
  match s with
  | EmptyString => EmptyString
  | String c s' =>
      match rstrip s' with
      | EmptyString => if is_space c then EmptyString else String c EmptyString
      | r => String c r
      end
  end.

Definition strip (s : string) : string := rstrip (lstrip s).

(** [s.split(sep)] for a one-character separator: empty pieces are kept. *)
Fixpoint split_on (sep : ascii) (s : string) : list string :=
  match s with
  | EmptyString => [EmptyString]
  | String c s' =>
      if Ascii.eqb c sep then EmptyString :: split_on sep s'
      else match split_on sep s' with
           | [] => [String c EmptyString]
           | w :: ws => String c w :: ws
           end
  end.

(** [s.startswith(p)]. *)
Fixpoint startswith (s p : string) {struct p} : bool :=
  match p, s with
  | EmptyString, _ => true
  | String _ _, EmptyString => false
  | String a p', String b s' => Ascii.eqb a b && startswith s' p'
  end.

(** [sub in s] on two strings: [sub] occurs somewhere in [s]. *)
Fixpoint str_in (sub s : string) : bool :=
  startswith s sub ||
  match s with
  | EmptyString => false
  | String _ s' => str_in sub s'
  end.

(** [x in l] on a list of strings. *)
Definition list_in (x : string) (l : list string) : bool :=
  existsb (String.eqb x) l.

(** [str(n)] for an integer. *)
Definition str_of_int (n : Z) : string :=
  NilZero.string_of_int (Z.to_int n).

(** [l[k]] on a list: a negative [k] counts from the end, anything
    outside [-len, len) raises IndexError. *)
Definition list_getitem {A} (l : list A) (k : Z) : result A :=
  let len := Z.of_nat (length l) in
  let k' := if k <? 0 then k + len else k in
  if (0 <=? k') && (k' <? len) then
    match l !! Z.to_nat k' with
    | Some x => Ok x
    | None => Raise IndexError
    end
  else Raise IndexError.

(** [l.sort()]: a stable sort that only asks [lt]. Stability fixes the
    outcome, so the insertion sort below stands for it: an element goes
    after every element that is not greater than it. *)
Section Sort.
Context {A : Type} (lt : A -> A -> bool).

Fixpoint sort_insert (x : A) (l : list A) : list A :=
  match l with
  | [] => [x]
  | y :: l' => if lt y x then y :: sort_insert x l' else x :: l
  end.

Fixpoint list_sort (l : list A) : list A :=
  match l with
  | [] => []
  | x :: l' => sort_insert x (list_sort l')
  end.
End Sort.

(** A [dict] with string keys keeps its items in insertion order; an
    assignment to a present key keeps the key's place. *)
Abbreviation dict V := (list (string * V)) (only parsing).

Section Dict.
Context {V : Type}.

Fixpoint dict_get (k : string) (d : dict V) : option V :=
  match d with
  | [] => None
  | (k', v) :: d' => if String.eqb k k' then Some v else dict_get k d'
  end.

Definition dict_mem (k : string) (d : dict V) : bool :=
  match dict_get k d with Some _ => true | None => false end.

Fixpoint dict_set (k : string) (v : V) (d : dict V) : dict V :=
  match d with
  | [] => [(k, v)]
  | (k', v') :: d' =>
      if String.eqb k k' then (k, v) :: d' else (k', v') :: dict_set k v d'
  end.

Fixpoint dict_remove (k : string) (d : dict V) : dict V :=
  match d with
  | [] => []
  | (k', v') :: d' =>
      if String.eqb k k' then d' else (k', v') :: dict_remove k d'
  end.

(** [del d[k]]. *)
Definition dict_del (k : string) (d : dict V) : result (dict V) :=
  if dict_mem k d then Ok (dict_remove k d) else Raise KeyError.

(** [d[k]]. *)
Definition dict_getitem (k : string) (d : dict V) : result V :=
  match dict_get k d with Some v => Ok v | None => Raise KeyError end.

Definition dict_keys (d : dict V) : list string := map fst d.
Definition dict_values (d : dict V) : list V := map snd d.
End Dict.

(** ** GenericItem, Problem and PickleMappingEntry *)

(** The attributes of [GenericItem]. [hardness] is [Some h] when the
    attribute is of type int and [None] otherwise. *)
Record GenericItem := {
  desc : string;
  source : string;
  tags : list string;
  path : string;
  i : option Z;
  author : option string;
  hardness : option Z;
  url : option string
}.

(** A PickleMappingEntry holds the attributes of its superclass. *)
Abbreviation PickleMappingEntry := GenericItem (only parsing).

Record Problem := {
  item :> GenericItem;
  bodies : list string
}.

Definition set_i (e : GenericItem) (v : option Z) : GenericItem :=
  {| desc := desc e; source := source e; tags := tags e; path := path e;
     i := v; author := author e; hardness := hardness e; url := url e |}.

Definition set_source (e : GenericItem) (s : string) : GenericItem :=
  {| desc := desc e; source := s; tags := tags e; path := path e;
     i := i e; author := author e; hardness := hardness e; url := url e |}.

Definition problem_set_i (p : Problem) (v : option Z) : Problem :=
  {| item := set_i p v; bodies := bodies p |}.

Definition problem_set_source (p : Problem) (s : string) : Problem :=
  {| item := set_source p s; bodies := bodies p |}.

(** [Problem.entry]: the keyword arguments that are None are skipped by
    the constructor and keep the class default, which is None. *)
Definition entry (p : Problem) : PickleMappingEntry :=
  {| source := source p; desc := desc p; author := author p; url := url p;
     hardness := hardness p; tags := tags p; path := path p; i := i p |}.

(** [GenericItem.n]. *)
Definition n (e : GenericItem) : option Z :=
  match i e with Some k => Some (k + 1) | None => None end.

(** What model.py imports from rc.py and puid.py, and the file behind
    OTIS_EVIL_JSON_PATH. *)
Class Rc := {
  (** the priority list of tags *)
  SORT_TAGS : list string;
  (** [evil_json.values()] of the file at OTIS_EVIL_JSON_PATH, and None
      when that path is None *)
  OTIS_EVIL_JSON : option (list string);
  (** puid.inferPUID *)
  inferPUID : string -> string
}.

Section Items.
Context `{Rc}.

Fixpoint first_sort_tag (k : Z) (ds : list string) (ts : list string)
  : option (Z * string) :=
  match ds with
  | [] => None
  | d :: ds' => if list_in d ts then Some (k, d) else first_sort_tag (k + 1) ds' ts
  end.

Definition sortvalue (e : GenericItem) : Z :=
  match first_sort_tag 0 SORT_TAGS (tags e) with
  | Some (k, _) => k
  | None => -1
  end.

Definition sortstring (e : GenericItem) : string :=
  match first_sort_tag 0 SORT_TAGS (tags e) with
  | Some (_, d) => d
  | None => "NONE"
  end.

Definition sortkey (e : GenericItem) : Z * Z * string :=
  match hardness e with
  | Some h => (sortvalue e, h, source e)
  | None => (sortvalue e, -1, source e)
  end.

(** [==] and [<] on the key tuples: the first differing component
    decides. *)
Definition key_eq (a b : Z * Z * string) : bool :=
  let '(a1, a2, a3) := a in
  let '(b1, b2, b3) := b in
  (a1 =? b1) && (a2 =? b2) && String.eqb a3 b3.

Definition key_lt (a b : Z * Z * string) : bool :=
  let '(a1, a2, a3) := a in
  let '(b1, b2, b3) := b in
  if negb (a1 =? b1) then a1 <? b1
  else if negb (a2 =? b2) then a2 <? b2
  else String.ltb a3 b3.

(** [GenericItem.__eq__] and [GenericItem.__lt__]. *)
Definition item_eq (a b : GenericItem) : bool := key_eq (sortkey a) (sortkey b).
Definition item_lt (a b : GenericItem) : bool := key_lt (sortkey a) (sortkey b).

(** *** The search predicates of PickleMappingEntry *)

Definition hasTag (e : PickleMappingEntry) (tag : string) : bool :=
  list_in (lower tag) (map lower (tags e)).

Definition blob (e : PickleMappingEntry) : string :=
  let b := source e +:+ " " +:+ desc e in
  match author e with
  | Some a => b +:+ " " +:+ a
  | None => b
  end.

Definition hasTerm (e : PickleMappingEntry) (term : string) : bool :=
  str_in (lower term) (lower (blob e)) || list_in term (tags e) ||
  str_in (upper term) (inferPUID (source e)).

Definition hasAuthor (e : PickleMappingEntry) (name : string) : bool :=
  match author e with
  | None => false
  | Some a =>
      let haystacks := split_on " " (strip (lower a)) in
      list_in (lower name) haystacks
  end.

Definition hasSource (e : PickleMappingEntry) (src : string) : bool :=
  str_in (lower src) (lower (source e)).
End Items.

(** ** The persisted stores and the operations on them *)

(** The contents of the two pickle files. A session opened with mode
    'wb' writes its store back when it ends, one opened with the
    default mode does not; an absent or empty file is the initial store.
    The entries are taken by value, as they are when no object sits at
    two places of a store; [Memory] below has the Cache with the
    objects themselves. *)
Record Stores := {
  index : dict PickleMappingEntry;
  cache : list PickleMappingEntry
}.

Definition initial_stores : Stores := {| index := []; cache := [] |}.

(** A key handed to [__getitem__]: an int, a str or an entry object. *)
Inductive pykey :=
| KInt (k : Z)
| KStr (s : string)
| KEntry (e : PickleMappingEntry).

(** [pickleListVonCache.__getitem__]: [self.store[key]] on the list;
    an IndexError is raised again as an IndexError, and a key that is
    not an int is a TypeError of the list. *)
Definition cache_getitem (store : list PickleMappingEntry) (key : pykey)
  : result PickleMappingEntry :=
  match key with
  | KInt k => list_getitem store k
  | KStr _ | KEntry _ => Raise TypeError
  end.

(** [iter(cache)] is [iter(self.store)]: it yields the entries. *)
Definition cache_iter (store : list PickleMappingEntry) : list pykey :=
  map KEntry store.

(** [Mapping.values] as pickleObj inherits it: for every key that
    [__iter__] yields, the value [self[key]]. *)
Fixpoint values_of (getitem : pykey -> result PickleMappingEntry) (keys : list pykey)
  : result (list PickleMappingEntry) :=
  match keys with
  | [] => Ok []
  | key :: keys' =>
      match getitem key with
      | Raise ex => Raise ex
      | Ok v =>
          match values_of getitem keys' with
          | Raise ex => Raise ex
          | Ok vs => Ok (v :: vs)
          end
      end
  end.

Definition cache_values (store : list PickleMappingEntry)
  : result (list PickleMappingEntry) :=
  values_of (cache_getitem store) (cache_iter store).

(** [pickleObj.__getitem__] on the Index: [self.store[key]] on the
    dictionary. An entry defines [__eq__] and no [__hash__], so it
    cannot be a key at all. *)
Definition index_getitem (store : dict PickleMappingEntry) (key : pykey)
  : result PickleMappingEntry :=
  match key with
  | KStr s => dict_getitem s store
  | KInt _ => Raise KeyError
  | KEntry _ => Raise TypeError
  end.

(** [index.values()]: the keys that [__iter__] yields are the keys of
    the dictionary. *)

Definition index_values (store : dict PickleMappingEntry)
  : result (list PickleMappingEntry) :=
  values_of (index_getitem store) (map KStr (dict_keys store)).

(** [pickleListVonCache.set]: every entry of the new store is stamped
    with its index. Entries are taken here by value: this is the
    outcome when the objects of [store] are pairwise distinct (see
    [obj_cache_set] below for the objects themselves). A list that
    holds one object twice ends with the last index at both places,
    which only [obj_cache_set] shows; what is stated below through
    [cache_set] is stated of lists that hold no object twice. *)
Definition cache_set (store : list PickleMappingEntry) : list PickleMappingEntry :=
  imap (fun k e => set_i e (Some (Z.of_nat k))) store.

Definition getEntryByCacheNum (num : Z) (st : Stores) : result PickleMappingEntry :=
  cache_getitem (cache st) (KInt (num - 1)).

Definition getEntryBySource (src : string) (st : Stores) : option PickleMappingEntry :=
  if dict_mem src (index st) then dict_get src (index st) else None.

Definition setCache (entries : list PickleMappingEntry) (st : Stores) : Stores :=
  {| index := index st; cache := cache_set entries |}.

Definition augmentCache (entries : list PickleMappingEntry) (st : Stores) : Stores :=
  {| index := index st; cache := cache_set (cache st ++ entries) |}.

Definition clearCache (st : Stores) : Stores :=
  {| index := index st; cache := cache_set [] |}.

Definition addEntryToIndex (e : PickleMappingEntry) (st : Stores) : Stores :=
  {| index := dict_set (source e) e (index st); cache := cache st |}.

Definition addProblemToIndex (p : Problem) (st : Stores) : PickleMappingEntry * Stores :=
  let idx := dict_set (source p) (entry p) (index st) in
  (entry p, {| index := idx; cache := cache st |}).

Definition setEntireIndex (d : dict PickleMappingEntry) (st : Stores) : Stores :=
  {| index := d; cache := cache st |}.

(** The position of the first entry of the cache whose source is [src]:
    the loop of updateEntryByProblem up to its [break]. *)
Fixpoint find_source (src : string) (store : list PickleMappingEntry) : option nat :=
  match store with
  | [] => None
  | e :: store' =>
      if String.eqb (source e) src then Some 0%nat
      else match find_source src store' with
           | Some k => Some (S k)
           | None => None
           end
  end.

(** The Cache half of updateEntryByProblem: the new store and the new
    entry as the loop leaves it. *)
Definition cache_update (old_source : string) (new_entry : PickleMappingEntry)
  (store : list PickleMappingEntry) : list PickleMappingEntry * PickleMappingEntry :=
  match find_source old_source store with
  | Some k =>
      let new_entry := set_i new_entry (Some (Z.of_nat k)) in
      (<[k := new_entry]> store, new_entry)
  | None =>
      let store' := cache_set (store ++ [new_entry]) in
      (store', set_i new_entry (Some (Z.of_nat (length store))))
  end.

Definition updateEntryByProblem (old_entry : PickleMappingEntry) (new_problem : Problem)
  (st : Stores) : result PickleMappingEntry * Stores :=
  let new_problem := problem_set_i new_problem (i old_entry) in
  let new_entry := entry new_problem in
  let deleted :=
    if negb (String.eqb (source old_entry) (source new_entry))
    then dict_del (source old_entry) (index st)
    else Ok (index st) in
  match deleted with
  | Raise ex => (Raise ex, st)
  | Ok idx =>
      let idx := dict_set (source new_entry) new_entry idx in
      let '(store, new_entry) := cache_update (source old_entry) new_entry (cache st) in
      (Ok new_entry, {| index := idx; cache := store |})
  end.

(** *** runSearch *)

Record Query := {
  terms : list string;
  q_tags : list string;
  sources : list string;
  authors : list string;
  q_path : string;
  refine : bool;
  alph_sort : bool;
  in_otis : option bool
}.

Section Search.
Context `{Rc}.

Definition otis_used_sources (q : Query) : option (list string) :=
  match in_otis q with
  | Some _ => OTIS_EVIL_JSON
  | None => None
  end.

Definition otis_ok (q : Query) (e : PickleMappingEntry) : bool :=
  match otis_used_sources q with
  | Some used_sources =>
      let used := list_in (source e) used_sources || hasTag e "waltz" in
      match in_otis q with
      | Some false => negb used
      | Some true => used
      | None => true
      end
  | None => true
  end.

Definition matches (q : Query) (e : PickleMappingEntry) : bool :=
  otis_ok q e &&
  (forallb (hasTag e) (q_tags q) && forallb (hasTerm e) (terms q) &&
   forallb (hasSource e) (sources q) &&
   forallb (hasAuthor e) (authors q) && startswith (path e) (q_path q)).

Definition source_lt (a b : PickleMappingEntry) : bool :=
  String.ltb (source a) (source b).

Definition sort_result (q : Query) (l : list PickleMappingEntry)
  : list PickleMappingEntry :=
  if alph_sort q then list_sort source_lt l else list_sort item_lt l.

(** The store that [refine] selects, read through [values()]. *)
Definition scanned (q : Query) (st : Stores) : result (list PickleMappingEntry) :=
  if refine q then cache_values (cache st) else index_values (index st).

(** The list that runSearch returns is the very list that setCache
    stores, so a non-empty result comes back stamped. *)
Definition runSearch (q : Query) (st : Stores)
  : result (list PickleMappingEntry) * Stores :=
  match scanned q st with
  | Raise ex => (Raise ex, st)
  | Ok vs =>
      let res := sort_result q (List.filter (matches q) vs) in
      if (0 <? length res)%nat then
        let st' := setCache res st in
        (Ok (cache st'), st')
      else (Ok res, st)
  end.
End Search.

(** *** rebuildIndex *)

Section Rebuild.
(** [randrange k] is what the k-th call of
    [random.randrange(10**6, 10**7)] returns. *)
Variable randrange : nat -> Z.

Record rebuild_state := {
  rb_d : dict PickleMappingEntry;
  rb_calls : nat;
  rb_errors : list string
}.

Definition rebuild_step (s : rebuild_state) (p : Problem) : rebuild_state :=
  if dict_mem (source p) (rb_d s) then
    let fake_source := "DUPLICATE " +:+ str_of_int (randrange (rb_calls s)) in
    let msg := source p +:+ " is being repeated, replacing with " +:+ fake_source in
    let p := problem_set_source p fake_source in
    {| rb_d := dict_set (source p) (entry p) (rb_d s);
       rb_calls := S (rb_calls s);
       rb_errors := rb_errors s ++ [msg] |}
  else
    {| rb_d := dict_set (source p) (entry p) (rb_d s);
       rb_calls := rb_calls s;
       rb_errors := rb_errors s |}.

Definition rebuild_loop (problems : list Problem) : rebuild_state :=
  fold_left rebuild_step problems {| rb_d := []; rb_calls := 0; rb_errors := [] |}.

(** [problems] is what getAllProblems returns; the second component
    lists the messages given to view.error. *)
Definition rebuildIndex (problems : list Problem) (st : Stores) : Stores * list string :=
  let s := rebuild_loop problems in
  (setEntireIndex (rb_d s) st, rb_errors s).
End Rebuild.

(** ** The Cache as Python keeps it: a list of objects

    [pickleListVonCache.set] assigns to the attribute [i] of the objects
    it is handed, and the pickle file keeps which positions hold one and
    the same object. [Memory] has the objects by identity. *)

(** An object is known by its address. *)
Abbreviation obj := nat (only parsing).

Record Memory := {
  heap : gmap obj GenericItem;
  store : list obj
}.

(** [o.i = k]. *)
Definition obj_set_i (o : obj) (k : nat) (h : gmap obj GenericItem)
  : gmap obj GenericItem :=
  alter (fun e => set_i e (Some (Z.of_nat k))) o h.

(** [for i in range(len(store)): store[i].i = i], from index [k] on. *)
Fixpoint obj_stamp (k : nat) (os : list obj) (h : gmap obj GenericItem)
  : gmap obj GenericItem :=
  match os with
  | [] => h
  | o :: os' => obj_stamp (S k) os' (obj_set_i o k h)
  end.

Definition obj_cache_set (new_store : list obj) (m : Memory) : Memory :=
  {| heap := obj_stamp 0 new_store (heap m); store := new_store |}.

Definition obj_augmentCache (entries : list obj) (m : Memory) : Memory :=
  obj_cache_set (store m ++ entries) m.

Definition obj_clearCache (m : Memory) : Memory := obj_cache_set [] m.

Fixpoint obj_find_source (h : gmap obj GenericItem) (src : string) (os : list obj)
  : option nat :=
  match os with
  | [] => None
  | o :: os' =>
      if match h !! o with Some e => String.eqb (source e) src | None => false end
      then Some 0%nat
      else match obj_find_source h src os' with
           | Some k => Some (S k)
           | None => None
           end
  end.

(** The Cache half of updateEntryByProblem on objects. *)
Definition obj_cache_update (old_source : string) (new_entry : obj) (m : Memory) : Memory :=
  match obj_find_source (heap m) old_source (store m) with
  | Some k =>
      {| heap := obj_set_i new_entry k (heap m); store := <[k := new_entry]> (store m) |}
  | None => obj_cache_set (store m ++ [new_entry]) m
  end.

(** ** Vocabulary of the statements *)

(** Every position [p] of the Cache holds an entry whose [i] is [p]. *)
Definition positions_ok (m : Memory) : Prop :=
  forall (p : nat) (o : obj), store m !! p = Some o ->
    exists e, heap m !! o = Some e /\ i e = Some (Z.of_nat p).

(** The same on entries taken by value. *)
Definition positions_agree (store : list PickleMappingEntry) : Prop :=
  forall (p : nat) (e : PickleMappingEntry), store !! p = Some e -> i e = Some (Z.of_nat p).

(** The objects [os] hold, in order, the entries [l]. *)
Definition represents (h : gmap obj GenericItem) (os : list obj)
  (l : list PickleMappingEntry) : Prop :=
  Forall2 (fun o e => h !! o = Some e) os l.

(** Every entry of the Index sits under its own source. *)
Definition keys_agree (d : dict PickleMappingEntry) : Prop :=
  forall k e, In (k, e) d -> source e = k.

(** The keys of a dictionary are pairwise different. *)
Definition dict_ok {V} (d : dict V) : Prop := NoDup (dict_keys d).

(** What the Index promises: the dictionary is one (no key twice), every
    entry sits under its own source, and looking up the source of a
    stored entry gives that entry. *)
Definition index_sound (d : dict PickleMappingEntry) : Prop :=
  dict_ok d /\ keys_agree d /\
  (forall k e, In (k, e) d -> dict_get (source e) d = Some e).

(** [sub] occurs in [s]: some text before it, some text after. *)
Definition occurs_in (sub s : string) : Prop :=
  exists pre post, s = pre +:+ sub +:+ post.

(** The order that a query asks for: [a] may stand before [b]. *)
Definition in_order `{Rc} (q : Query) (a b : PickleMappingEntry) : Prop :=
  if alph_sort q then String.ltb (source b) (source a) = false
  else item_lt b a = false.

(** The items that a loop over problems with fresh sources adds. *)
Definition entry_items (ps : list Problem) : dict PickleMappingEntry :=
  map (fun p : Problem => (source p, entry p)) ps.

(** The placeholder that the first collision gets. *)
Definition first_placeholder (randrange : nat -> Z) : string :=
  "DUPLICATE " +:+ str_of_int (randrange 0%nat).

(** ** Sample data *)

(** A configuration with two priority tags, no usage feed, and a PUID
    table that knows one source. *)
Definition rc_sample : Rc :=
  {| SORT_TAGS := ["A"; "B"];
     OTIS_EVIL_JSON := None;
     inferPUID := fun s => if String.eqb s "USAMO 2000/6" then "00USAMO6" else "" |}.

Definition mk_entry (src : string) (ts : list string) (h : option Z) : PickleMappingEntry :=
  {| desc := ""; source := src; tags := ts; path := src +:+ ".tex";
     i := None; author := None; hardness := h; url := None |}.

Definition entry_x1 : PickleMappingEntry := mk_entry "X1" ["algebra"] (Some 5).
Definition entry_x2 : PickleMappingEntry := mk_entry "X2" ["combo"] (Some 2).

(** Two items with one ordering key and nothing else in common. *)
Definition eq_left : GenericItem :=
  {| desc := "Fiendish inequality"; source := "USAMO 2000/6";
     tags := ["A"; "hard"]; path := "usamo/2000-6.tex"; i := Some 3;
     author := Some "Evan"; hardness := Some 7; url := Some "http://a" |}.

Definition eq_right : GenericItem :=
  {| desc := "Something else"; source := "USAMO 2000/6";
     tags := ["A"; "easy"; "geo"]; path := "other.tex"; i := None;
     author := None; hardness := Some 7; url := None |}.

(** The query without any filter, over the Index or over the Cache. *)
Definition all_of (rf : bool) : Query :=
  {| terms := []; q_tags := []; sources := []; authors := []; q_path := "";
     refine := rf; alph_sort := false; in_otis := None |}.

(** The query [tags=["algebra"]] over the whole Index. *)
Definition algebra_query : Query :=
  {| terms := []; q_tags := ["algebra"]; sources := []; authors := []; q_path := "";
     refine := false; alph_sort := false; in_otis := None |}.

Definition stores_x1_x2 : Stores :=
  {| index := [("X1", entry_x1); ("X2", entry_x2)]; cache := [] |}.

(** Stores whose Cache holds one entry. *)
Definition stores_cached : Stores :=
  {| index := [("X1", entry_x1); ("X2", entry_x2)];
     cache := [set_i entry_x1 (Some 0)] |}.

(** A memory with one entry object, for a caller that hands it over
    twice. *)
Definition shared_twice : Memory :=
  {| heap := {[ 7%nat := entry_x1 ]}; store := [] |}.

(** Two objects that arrive with positions of the caller's choosing. *)
Definition two_objects : Memory :=
  {| heap := {[ 1%nat := set_i entry_x1 (Some 40); 2%nat := set_i entry_x2 (Some (-3)) ]};
     store := [] |}.

Definition problem_of (e : GenericItem) : Problem := {| item := e; bodies := [] |}.

(** Three problems: one whose source reads like a placeholder, and two
    that share the source X. *)
Definition doc_named_like_placeholder : Problem :=
  problem_of {| desc := "bystander"; source := "DUPLICATE 1000000"; tags := [];
                path := "a.tex"; i := None; author := None; hardness := None;
                url := None |}.

Definition doc_first_x : Problem :=
  problem_of {| desc := "first"; source := "X"; tags := []; path := "b.tex";
                i := None; author := None; hardness := None; url := None |}.

Definition doc_second_x : Problem :=
  problem_of {| desc := "second"; source := "X"; tags := []; path := "c.tex";
                i := None; author := None; hardness := None; url := None |}.

Definition three_docs : list Problem :=
  [doc_named_like_placeholder; doc_first_x; doc_second_x].

(** ** Further parts of model.py *)

(** The comparisons that [functools.total_ordering] adds to GenericItem
    from [__lt__] and [__eq__]: [a > b] is [not a < b and a != b],
    [a <= b] is [a < b or a == b], [a >= b] is [not a < b]; [a != b] is
    the default [not a == b]. *)
Section TotalOrdering.
Context `{Rc}.

Definition item_ne (a b : GenericItem) : bool := negb (item_eq a b).
Definition item_gt (a b : GenericItem) : bool := negb (item_lt a b) && item_ne a b.
Definition item_le (a b : GenericItem) : bool := item_lt a b || item_eq a b.
Definition item_ge (a b : GenericItem) : bool := negb (item_lt a b).
End TotalOrdering.

(** [PickleMappingEntry.secret]. *)
Definition secret (e : PickleMappingEntry) : bool :=
  str_in "SECRET" (source e) || list_in "secret" (tags e).

(** [Problem.state]: [self.bodies[0]]. *)
Definition state (p : Problem) : result string := list_getitem (bodies p) 0.

(** The placeholder that the collision using the [k]-th draw gets. *)
Definition placeholder (randrange : nat -> Z) (k : nat) : string :=
  "DUPLICATE " +:+ str_of_int (randrange k).

(** A query without any filter. *)
Definition no_filter (q : Query) : Prop :=
  terms q = [] /\ q_tags q = [] /\ sources q = [] /\ authors q = [] /\
  q_path q = "" /\ in_otis q = None.

(** [q'] asks for everything that [q] asks for, and possibly more. *)
Definition narrower (q' q : Query) : Prop :=
  incl (terms q) (terms q') /\ incl (q_tags q) (q_tags q') /\
  incl (sources q) (sources q') /\ incl (authors q) (authors q') /\
  startswith (q_path q') (q_path q) = true /\ in_otis q' = in_otis q.

(** The item [kv] of the Index stands for the problem [p]: it holds the
    entry of [p] with the key as its source, and the key is the source
    of [p] or a placeholder. *)
Definition stands_for (randrange : nat -> Z) (p : Problem)
  (kv : string * PickleMappingEntry) : Prop :=
  kv.2 = set_source (entry p) kv.1 /\
  (kv.1 = source p \/ exists k, kv.1 = placeholder randrange k).

(** Every key of the dictionary in progress is a source of
    [all_sources] or the placeholder of an earlier draw. *)
Definition keys_known (randrange : nat -> Z) (all_sources : list string)
  (s : rebuild_state) : Prop :=
  forall key, In key (dict_keys (rb_d s)) ->
    In key all_sources \/ exists k, (k < rb_calls s)%nat /\ key = placeholder randrange k.

(** [key.isdigit()]: at least one character, and digits only. Among
    the characters of a [string] the digits are 0-9 and the superscripts
    two, three and one (code points 178, 179 and 185). *)
Definition is_decimal (c : ascii) : bool :=
  ((48 <=? nat_of_ascii c) && (nat_of_ascii c <=? 57))%nat.

Definition is_digit (c : ascii) : bool :=
  is_decimal c ||
  ((nat_of_ascii c =? 178) || (nat_of_ascii c =? 179) || (nat_of_ascii c =? 185))%nat.

Fixpoint all_digits (s : string) : bool :=
  match s with
  | EmptyString => true
  | String c s' => is_digit c && all_digits s'
  end.

Fixpoint all_decimal (s : string) : bool :=
  match s with
  | EmptyString => true
  | String c s' => is_decimal c && all_decimal s'
  end.

Definition isdigit (s : string) : bool :=
  match s with
  | EmptyString => false
  | String _ _ => all_digits s
  end.

(** [int(key)] on a key for which [isdigit] holds. It is the number
    that the key writes when all characters are among 0-9 and there are
    no more of them than the interpreter converts
    ([max_str_digits] is [sys.get_int_max_str_digits()], 0 when there is
    no limit); otherwise it raises ValueError, here [None]. *)
Definition int_of_str (max_str_digits : nat) (s : string) : option Z :=
  if all_decimal s &&
     ((max_str_digits =? 0)%nat || (String.length s <=? max_str_digits)%nat)
  then match NilEmpty.uint_of_string s with
       | Some u => Some (Z.of_uint u)
       | None => None
       end
  else None.

(** What getEntryByKey does: it returns an entry, or None when the
    Index has no such source, or it raises what the Cache raises, or the
    ValueError of [int]. *)
Inductive key_outcome :=
| KeyReturn (r : option PickleMappingEntry)
| KeyRaise (ex : exn)
| KeyValueError.

Definition getEntryByKey (max_str_digits : nat) (key : string) (st : Stores)
  : key_outcome :=
  if isdigit key then
    match int_of_str max_str_digits key with
    | None => KeyValueError
    | Some num =>
        match getEntryByCacheNum num st with
        | Ok e => KeyReturn (Some e)
        | Raise ex => KeyRaise ex
        end
    end
  else KeyReturn (getEntryBySource key st).

(** [readCache] hands back the Cache that it loaded. *)
Definition readCache (st : Stores) : list PickleMappingEntry := cache st.

(** [s.endswith(suffix)]. *)
Definition endswith (s suffix : string) : bool :=
  (String.length suffix <=? String.length s)%nat &&
  String.eqb (substring (String.length s - String.length suffix)
                (String.length suffix) s) suffix.

(** One name that [os.listdir(path)] gives: the name, the joined path
    [os.path.join(path, item_path)], what [os.path.isfile] and
    [os.path.isdir] say of the joined path, and the problem that
    makeProblemFromPath reads from it when it is a TeX file. *)
Record DirItem := {
  item_path : string;
  abs_item_path : string;
  isfile : bool;
  isdir : bool;
  problem_at : Problem
}.

(** The loop of viewDirectory: the problems and the directory names, in
    listing order. *)
Fixpoint view_scan (listing : list DirItem) : list Problem * list string :=
  match listing with
  | [] => ([], [])
  | it :: rest =>
      let '(problems, dirs) := view_scan rest in
      if isfile it && endswith (abs_item_path it) ".tex" then (problem_at it :: problems, dirs)
      else if isdir it then (problems, item_path it :: dirs)
      else (problems, dirs)
  end.

(** As in runSearch, the list returned is the list that setCache has
    stamped. *)
Definition viewDirectory `{Rc} (listing : list DirItem) (st : Stores)
  : (list PickleMappingEntry * list string) * Stores :=
  let '(problems, dirs) := view_scan listing in
  let dirs := list_sort String.ltb dirs in
  let entries := list_sort item_lt (map entry problems) in
  if (0 <? length entries)%nat then
    let st' := setCache entries st in
    ((cache st', dirs), st')
  else ((entries, dirs), st).

(** A listing with a directory, a TeX file, and a file that is none. *)
Definition listing_sample : list DirItem :=
  [ {| item_path := "zeta"; abs_item_path := "d/zeta"; isfile := false; isdir := true;
       problem_at := problem_of entry_x2 |};
    {| item_path := "p.tex"; abs_item_path := "d/p.tex"; isfile := true; isdir := false;
       problem_at := problem_of entry_x1 |};
    {| item_path := "notes.txt"; abs_item_path := "d/notes.txt"; isfile := true;
       isdir := false; problem_at := problem_of entry_x2 |} ].

(** The names that viewDirectory reads as problems, and the names that
    it lists as directories. *)
Definition is_tex_file (it : DirItem) : bool :=
  isfile it && endswith (abs_item_path it) ".tex".

Definition is_listed_dir (it : DirItem) : bool :=
  negb (is_tex_file it) && isdir it.

(** Stores in which the Cache still shows an entry, X1, that the Index
    no longer has. *)
Definition stores_stale_cache : Stores :=
  {| index := [("X2", entry_x2)]; cache := [set_i entry_x1 (Some 0)] |}.

(** The Index on objects: every key leads to an object whose source is
    the key. *)
Definition obj_keys_agree (h : gmap obj GenericItem) (oidx : dict obj) : Prop :=
  forall k o, In (k, o) oidx -> exists e, h !! o = Some e /\ source e = k.

(** * Properties *)

(** ** The ordering key *)

Section KeyFacts.
Context `{Rc}.

Lemma key_eq_refl (a : Z * Z * string) : key_eq a a = true.
Proof.
  destruct a as [[a1 a2] a3]. unfold key_eq.
  rewrite !Z.eqb_refl, String.eqb_refl. reflexivity.
Qed.

Lemma key_eq_true (a b : Z * Z * string) : key_eq a b = true <-> a = b.
Proof.
  split; [| intros ->; apply key_eq_refl].
  destruct a as [[a1 a2] a3], b as [[b1 b2] b3]. unfold key_eq.
  rewrite !andb_true_iff, !Z.eqb_eq, String.eqb_eq.
  intros [[-> ->] ->]. reflexivity.
Qed.

Lemma string_ltb_irrefl (s : string) : String.ltb s s = false.
Proof.
  unfold String.ltb.
  assert (Hc : (s ?= s)%string = Eq).
  { induction s as [| c s IH]; simpl; [reflexivity |].
    unfold Ascii.compare. rewrite N.compare_refl. exact IH. }
  rewrite Hc. reflexivity.
Qed.

Lemma string_ltb_asym (s t : string) : String.ltb s t = true -> String.ltb t s = false.
Proof.
  unfold String.ltb. rewrite (String.compare_antisym t s).
  destruct (s ?= t)%string; simpl; congruence.
Qed.

Lemma key_lt_asym (a b : Z * Z * string) : key_lt a b = true -> key_lt b a = false.
Proof.
  destruct a as [[a1 a2] a3], b as [[b1 b2] b3]. unfold key_lt.
  rewrite (Z.eqb_sym b1 a1), (Z.eqb_sym b2 a2).
  destruct (a1 =? b1) eqn:E1; cbn [negb].
  - destruct (a2 =? b2) eqn:E2; cbn [negb].
    + apply string_ltb_asym.
    + rewrite Z.ltb_lt, Z.ltb_ge. lia.
  - rewrite Z.ltb_lt, Z.ltb_ge. lia.
Qed.

Lemma sortkey_absent (e : GenericItem) :
  hardness e = None -> sortkey e = (sortvalue e, -1, source e).
Proof. unfold sortkey. intros ->. reflexivity. Qed.

Lemma sortkey_int (e : GenericItem) (h : Z) :
  hardness e = Some h -> sortkey e = (sortvalue e, h, source e).
Proof. unfold sortkey. intros ->. reflexivity. Qed.
End KeyFacts.

(** C10. Two items whose ordering keys (sort bucket, hardness or the
    sentinel, source) are equal compare equal with [==], whatever their
    other attributes are. *)
Theorem item_eq_of_sortkey `{Rc} (a b : GenericItem) :
  sortkey a = sortkey b -> item_eq a b = true.
Proof. unfold item_eq. intros ->. apply key_eq_refl. Qed.

(** [==] says nothing more than equality of the keys. *)
Lemma item_eq_iff `{Rc} (a b : GenericItem) :
  item_eq a b = true <-> sortkey a = sortkey b.
Proof. unfold item_eq. apply key_eq_true. Qed.

Lemma item_eq_of_sortkey_witness :
  desc eq_left <> desc eq_right /\ author eq_left <> author eq_right /\
  url eq_left <> url eq_right /\ path eq_left <> path eq_right /\
  i eq_left <> i eq_right /\ tags eq_left <> tags eq_right /\
  @item_eq rc_sample eq_left eq_right = true.
Proof.
  do 6 (split; [discriminate |]).
  apply (@item_eq_of_sortkey rc_sample eq_left eq_right). reflexivity.
Defined.

(** C9, as stated, fails: an item without hardness sorts after an item
    of the same bucket whose hardness is the integer -5. *)
Lemma absent_hardness_after_negative :
  let a := mk_entry "P" ["A"] None in
  let b := mk_entry "P" ["A"] (Some (-5)) in
  @sortvalue rc_sample a = @sortvalue rc_sample b /\
  @item_lt rc_sample b a = true /\
  list_sort (@item_lt rc_sample) [a; b] = [b; a].
Proof. vm_compute. repeat split. Qed.

(** C9, amended. The sentinel is -1: in one sort bucket an item without
    an integer hardness sorts before, and never after, every item whose
    hardness is an integer that is at least 0. *)
Theorem absent_hardness_sorts_first `{Rc} (a b : GenericItem) (h : Z) :
  hardness a = None -> hardness b = Some h -> 0 <= h ->
  sortvalue a = sortvalue b ->
  item_lt a b = true /\ item_lt b a = false.
Proof.
  intros Ha Hb Hh Hv.
  assert (Hlt : item_lt a b = true).
  { unfold item_lt. rewrite (sortkey_absent a Ha), (sortkey_int b h Hb), Hv.
    unfold key_lt. rewrite Z.eqb_refl. cbn [negb].
    assert (E : (-1 =? h) = false) by (apply Z.eqb_neq; lia).
    rewrite E. cbn [negb]. apply Z.ltb_lt. lia. }
  split; [exact Hlt |]. apply key_lt_asym. exact Hlt.
Qed.

Lemma absent_hardness_sorts_first_witness :
  let a := mk_entry "Z" ["B"] None in
  let b := mk_entry "A" ["B"] (Some 0) in
  @item_lt rc_sample a b = true /\ @item_lt rc_sample b a = false.
Proof.
  exact (@absent_hardness_sorts_first rc_sample (mk_entry "Z" ["B"] None)
           (mk_entry "A" ["B"] (Some 0)) 0 eq_refl eq_refl (Z.le_refl 0) eq_refl).
Defined.

(** ** Reading the Cache by number *)

Lemma list_getitem_far {A} (l : list A) (k : Z) :
  Z.of_nat (length l) <= k \/ k < - Z.of_nat (length l) ->
  list_getitem l k = Raise IndexError.
Proof.
  intros Hk. unfold list_getitem. cbv zeta.
  destruct (k <? 0) eqn:Eneg.
  - apply Z.ltb_lt in Eneg.
    assert (E : (0 <=? k + Z.of_nat (length l)) = false) by (apply Z.leb_gt; lia).
    rewrite E. reflexivity.
  - apply Z.ltb_ge in Eneg.
    assert (E : (k <? Z.of_nat (length l)) = false) by (apply Z.ltb_ge; lia).
    rewrite E, andb_false_r. reflexivity.
Qed.

Lemma list_getitem_nonneg {A} (l : list A) (k : nat) (x : A) :
  l !! k = Some x -> list_getitem l (Z.of_nat k) = Ok x.
Proof.
  intros Hx. pose proof (lookup_lt_Some _ _ _ Hx) as Hlt.
  unfold list_getitem. cbv zeta.
  assert (E0 : (Z.of_nat k <? 0) = false) by (apply Z.ltb_ge; lia).
  assert (E1 : (0 <=? Z.of_nat k) = true) by (apply Z.leb_le; lia).
  assert (E2 : (Z.of_nat k <? Z.of_nat (length l)) = true) by (apply Z.ltb_lt; lia).
  rewrite E0, E1, E2, Nat2Z.id, Hx. reflexivity.
Qed.

Lemma list_getitem_negative {A} (l : list A) (k : Z) (x : A) :
  - Z.of_nat (length l) <= k < 0 ->
  l !! Z.to_nat (k + Z.of_nat (length l)) = Some x ->
  list_getitem l k = Ok x.
Proof.
  intros Hk Hx. unfold list_getitem. cbv zeta.
  assert (E0 : (k <? 0) = true) by (apply Z.ltb_lt; lia).
  assert (E1 : (0 <=? k + Z.of_nat (length l)) = true) by (apply Z.leb_le; lia).
  assert (E2 : (k + Z.of_nat (length l) <? Z.of_nat (length l)) = true)
    by (apply Z.ltb_lt; lia).
  rewrite E0, E1, E2, Hx. reflexivity.
Qed.

(** Numbers above the length of the Cache, and numbers at or below
    minus the length, raise IndexError. *)
Lemma getEntryByCacheNum_far (num : Z) (st : Stores) :
  Z.of_nat (length (cache st)) < num \/ num <= - Z.of_nat (length (cache st)) ->
  getEntryByCacheNum num st = Raise IndexError.
Proof.
  intros Hn. unfold getEntryByCacheNum, cache_getitem.
  apply list_getitem_far. lia.
Qed.

(** The numbers 1..L give the entries of the Cache in order. *)
Lemma getEntryByCacheNum_in_range (k : nat) (st : Stores) (e : PickleMappingEntry) :
  cache st !! k = Some e -> getEntryByCacheNum (Z.of_nat k + 1) st = Ok e.
Proof.
  intros He. unfold getEntryByCacheNum, cache_getitem.
  replace (Z.of_nat k + 1 - 1) with (Z.of_nat k) by lia.
  apply list_getitem_nonneg. exact He.
Qed.

(** The numbers from 1-L to 0 are outside 1..L, and they give an entry
    all the same: the list counts them from its end. *)
Lemma getEntryByCacheNum_wraps (num : Z) (st : Stores) :
  - Z.of_nat (length (cache st)) < num <= 0 ->
  exists e, getEntryByCacheNum num st = Ok e /\
            cache st !! Z.to_nat (num - 1 + Z.of_nat (length (cache st))) = Some e.
Proof.
  intros Hn.
  destruct (lookup_lt_is_Some_2 (cache st)
              (Z.to_nat (num - 1 + Z.of_nat (length (cache st))))) as [e He]; [lia |].
  exists e. split; [| exact He].
  unfold getEntryByCacheNum, cache_getitem.
  apply list_getitem_negative; [lia | exact He].
Qed.

(** C7 at its failing input: in a Cache of one entry the number 0,
    which is outside 1..1, returns that entry and raises nothing. *)
Theorem getEntryByCacheNum_zero_returns :
  getEntryByCacheNum 0 {| index := []; cache := [entry_x1] |} = Ok entry_x1.
Proof. reflexivity. Qed.

(** ** The Cache on entries taken by value *)

Lemma cache_set_length (l : list PickleMappingEntry) : length (cache_set l) = length l.
Proof. unfold cache_set. apply length_imap. Qed.

Lemma cache_set_lookup (l : list PickleMappingEntry) (p : nat) :
  cache_set l !! p = (fun e => set_i e (Some (Z.of_nat p))) <$> l !! p.
Proof. unfold cache_set. apply list_lookup_imap. Qed.

Lemma cache_set_positions (l : list PickleMappingEntry) : positions_agree (cache_set l).
Proof.
  intros p e. rewrite cache_set_lookup.
  destruct (l !! p); simpl; [| discriminate].
  intros [= <-]. reflexivity.
Qed.

Lemma find_source_Some (src : string) (l : list PickleMappingEntry) (k : nat) :
  find_source src l = Some k ->
  (exists e, l !! k = Some e /\ source e = src) /\
  (forall j e, (j < k)%nat -> l !! j = Some e -> source e <> src).
Proof.
  revert k. induction l as [| x l IH]; intros k; simpl; [discriminate |].
  destruct (String.eqb (source x) src) eqn:E.
  - intros [= <-]. split.
    + exists x. split; [reflexivity | apply String.eqb_eq; exact E].
    + intros j e Hj. lia.
  - destruct (find_source src l) as [k' |]; [| discriminate].
    intros [= <-]. destruct (IH k' eq_refl) as [[e [He Hs]] Hbefore]. split.
    + exists e. split; assumption.
    + intros [| j] e' Hj; simpl.
      * intros [= <-]. apply String.eqb_neq. exact E.
      * apply Hbefore. lia.
Qed.

Lemma find_source_None (src : string) (l : list PickleMappingEntry) :
  find_source src l = None <-> (forall e, In e l -> source e <> src).
Proof.
  induction l as [| x l IH]; simpl.
  - split; [intros _ e [] | reflexivity].
  - destruct (String.eqb (source x) src) eqn:E.
    + split; [discriminate |]. intros Hall. exfalso.
      apply (Hall x); [left; reflexivity | apply String.eqb_eq; exact E].
    + destruct (find_source src l) as [k |].
      * split; [discriminate |]. intros Hall.
        destruct IH as [_ IH]. discriminate IH. intros e He. apply Hall. right. exact He.
      * split; [| reflexivity]. intros _ e [<- | He].
        -- apply String.eqb_neq. exact E.
        -- destruct IH as [IH _]. apply IH; [reflexivity | exact He].
Qed.

Lemma find_source_present (src : string) (l : list PickleMappingEntry) :
  (exists e, In e l /\ source e = src) -> exists k, find_source src l = Some k.
Proof.
  intros [e [He Hs]]. destruct (find_source src l) as [k |] eqn:E; [eauto |].
  exfalso. apply (proj1 (find_source_None src l) E e He Hs).
Qed.

Lemma set_i_same (e : GenericItem) : set_i e (i e) = e.
Proof. destruct e. reflexivity. Qed.

Lemma cache_update_found (old_source : string) (new_entry : PickleMappingEntry)
  (l : list PickleMappingEntry) (k : nat) :
  find_source old_source l = Some k ->
  cache_update old_source new_entry l =
    (<[k := set_i new_entry (Some (Z.of_nat k))]> l, set_i new_entry (Some (Z.of_nat k))).
Proof. unfold cache_update. intros ->. reflexivity. Qed.

Lemma cache_update_missing (old_source : string) (new_entry : PickleMappingEntry)
  (l : list PickleMappingEntry) :
  find_source old_source l = None ->
  cache_update old_source new_entry l =
    (cache_set (l ++ [new_entry]), set_i new_entry (Some (Z.of_nat (length l)))).
Proof. unfold cache_update. intros ->. reflexivity. Qed.

(** updateEntryByProblem leaves in the Cache what [cache_update] makes
    of it, for the new problem's entry carrying the old entry's [i]. *)
Lemma updateEntryByProblem_cache (old_entry : PickleMappingEntry) (new_problem : Problem)
  (st st' : Stores) (r : PickleMappingEntry) :
  updateEntryByProblem old_entry new_problem st = (Ok r, st') ->
  (cache st', r) =
    cache_update (source old_entry) (entry (problem_set_i new_problem (i old_entry)))
      (cache st).
Proof.
  unfold updateEntryByProblem. cbv zeta.
  destruct (if negb _ then _ else _) as [idx | ex]; [| discriminate].
  destruct (cache_update _ _ _) as [l' e']. intros [= <- <-]. reflexivity.
Qed.

(** When the new problem keeps the source of the old entry, or the old
    source is in the Index, the Index step succeeds and the Cache step
    runs. *)
Lemma updateEntryByProblem_reaches_cache (old_entry : PickleMappingEntry)
  (new_problem : Problem) (st : Stores) :
  source old_entry = source new_problem \/ dict_mem (source old_entry) (index st) = true ->
  exists r st',
    updateEntryByProblem old_entry new_problem st = (Ok r, st') /\
    (cache st', r) =
      cache_update (source old_entry) (entry (problem_set_i new_problem (i old_entry)))
        (cache st).
Proof.
  intros Hcase. unfold updateEntryByProblem. cbv zeta.
  change (source (entry (problem_set_i new_problem (i old_entry))))
    with (source new_problem).
  destruct (String.eqb (source old_entry) (source new_problem)) eqn:E; cbn [negb].
  - destruct (cache_update _ _ _) as [l' r]. eexists _, _. split; reflexivity.
  - destruct Hcase as [Heq | Hmem]; [apply String.eqb_neq in E; contradiction |].
    unfold dict_del. rewrite Hmem.
    destruct (cache_update _ _ _) as [l' r]. eexists _, _. split; reflexivity.
Qed.

(** C5, as stated, fails: the Cache holds an entry with the source X1,
    the Index does not, and the update renames X1 to Y1; the update
    raises KeyError at the Index and the Cache entry is not replaced. *)
Lemma updateEntryByProblem_cached_not_indexed :
  (exists e, In e (cache stores_stale_cache) /\ source e = source entry_x1) /\
  updateEntryByProblem entry_x1 (problem_of (mk_entry "Y1" [] None)) stores_stale_cache
  = (Raise KeyError, stores_stale_cache).
Proof.
  split; [| reflexivity].
  exists (set_i entry_x1 (Some 0)). split; [left; reflexivity | reflexivity].
Qed.

(** C5, amended. When the update gets past the Index (the new problem
    keeps the old source, or the old source is in the Index), it
    succeeds, and: if an entry of the Cache has the old source, the
    first such entry is replaced where it stands by the new entry,
    stamped with that index, and every other position keeps its entry;
    if none has, the new entry is appended at the end, stamped with its
    index, and the positions before it keep their entries, up to [i] in
    general and exactly when the Cache carried its own indices. *)
Theorem updateEntryByProblem_in_place_or_append (old_entry : PickleMappingEntry)
  (new_problem : Problem) (st : Stores) :
  source old_entry = source new_problem \/ dict_mem (source old_entry) (index st) = true ->
  exists r st',
    updateEntryByProblem old_entry new_problem st = (Ok r, st') /\
    ((exists e, In e (cache st) /\ source e = source old_entry) ->
     exists k e,
       cache st !! k = Some e /\ source e = source old_entry /\
       (forall j e', (j < k)%nat -> cache st !! j = Some e' ->
          source e' <> source old_entry) /\
       r = set_i (entry new_problem) (Some (Z.of_nat k)) /\
       cache st' !! k = Some r /\
       length (cache st') = length (cache st) /\
       (forall j, j <> k -> cache st' !! j = cache st !! j)) /\
    ((forall e, In e (cache st) -> source e <> source old_entry) ->
     r = set_i (entry new_problem) (Some (Z.of_nat (length (cache st)))) /\
     length (cache st') = S (length (cache st)) /\
     cache st' !! length (cache st) = Some r /\
     (forall j e, cache st !! j = Some e ->
        exists e', cache st' !! j = Some e' /\ set_i e' None = set_i e None) /\
     (positions_agree (cache st) ->
        forall j, (j < length (cache st))%nat -> cache st' !! j = cache st !! j)).
Proof.
  intros Hcase.
  destruct (updateEntryByProblem_reaches_cache old_entry new_problem st Hcase)
    as [r [st' [Hrun Hcache]]].
  exists r, st'. split; [exact Hrun |].
  set (e0 := entry (problem_set_i new_problem (i old_entry))) in *.
  split.
  - intros Hex. destruct (find_source_present _ _ Hex) as [k Hk].
    destruct (find_source_Some _ _ _ Hk) as [[e [He Hs]] Hbefore].
    rewrite (cache_update_found _ _ _ _ Hk) in Hcache. injection Hcache as Hc Hr.
    exists k, e. split; [exact He |]. split; [exact Hs |]. split; [exact Hbefore |].
    split; [rewrite Hr; reflexivity |]. rewrite Hc, Hr. split; [| split].
    + apply list_lookup_insert_eq. eapply lookup_lt_Some. exact He.
    + apply length_insert.
    + intros j Hj. apply list_lookup_insert_ne. congruence.
  - intros Hall. apply find_source_None in Hall.
    rewrite (cache_update_missing _ _ _ Hall) in Hcache. injection Hcache as Hc Hr.
    assert (Hold : forall j e, cache st !! j = Some e ->
              cache st' !! j = Some (set_i e (Some (Z.of_nat j)))).
    { intros j e He. rewrite Hc, cache_set_lookup, lookup_app_l.
      - rewrite He. reflexivity.
      - eapply lookup_lt_Some. exact He. }
    split; [rewrite Hr; reflexivity |]. split; [| split; [| split]].
    + rewrite Hc, cache_set_length, length_app. cbn [length]. lia.
    + rewrite Hc, Hr, cache_set_lookup, list_lookup_middle; reflexivity.
    + intros j e He. exists (set_i e (Some (Z.of_nat j))).
      split; [exact (Hold j e He) | reflexivity].
    + intros Hpos j Hj. destruct (lookup_lt_is_Some_2 (cache st) j Hj) as [e He].
      rewrite (Hold j e He), He, <- (Hpos j e He), set_i_same. reflexivity.
Qed.

Lemma updateEntryByProblem_in_place_or_append_witness :
  exists r st',
    updateEntryByProblem entry_x1 (problem_of (mk_entry "Y1" [] None)) stores_cached
    = (Ok r, st') /\
    cache st' !! 0%nat = Some r /\ r = set_i (mk_entry "Y1" [] None) (Some 0).
Proof.
  destruct (updateEntryByProblem_in_place_or_append entry_x1
              (problem_of (mk_entry "Y1" [] None)) stores_cached)
    as [r [st' [Hrun [Hfound _]]]].
  - right. reflexivity.
  - exists r, st'. split; [exact Hrun |].
    destruct Hfound as [k [e [Hk [_ [_ [Hr [Hnew _]]]]]]].
    + exists (set_i entry_x1 (Some 0)). split; [left; reflexivity | reflexivity].
    + destruct k as [| k]; [| destruct k; discriminate Hk].
      split; [exact Hnew | exact Hr].
Defined.

(** ** The Cache on objects *)

Lemma obj_set_i_other (o o' : obj) (k : nat) (h : gmap obj GenericItem) :
  o <> o' -> obj_set_i o k h !! o' = h !! o'.
Proof. intros Hne. unfold obj_set_i. apply lookup_alter_ne. exact Hne. Qed.

Lemma obj_set_i_same (o : obj) (k : nat) (h : gmap obj GenericItem) (e : GenericItem) :
  h !! o = Some e -> obj_set_i o k h !! o = Some (set_i e (Some (Z.of_nat k))).
Proof. intros He. unfold obj_set_i. rewrite lookup_alter_eq, He. reflexivity. Qed.

Lemma obj_stamp_other (os : list obj) (k : nat) (h : gmap obj GenericItem) (o : obj) :
  o ∉ os -> obj_stamp k os h !! o = h !! o.
Proof.
  revert k h. induction os as [| o0 os IH]; intros k h Hnot; simpl; [reflexivity |].
  apply not_elem_of_cons in Hnot as [Hne Hnot].
  rewrite IH by exact Hnot. apply obj_set_i_other. congruence.
Qed.

(** On pairwise distinct objects the loop leaves at position [p] an
    object whose [i] is [p], and changes nothing else of it. *)
Lemma obj_stamp_lookup (os : list obj) (k : nat) (h : gmap obj GenericItem)
  (p : nat) (o : obj) (e : GenericItem) :
  NoDup os -> os !! p = Some o -> h !! o = Some e ->
  obj_stamp k os h !! o = Some (set_i e (Some (Z.of_nat (k + p)))).
Proof.
  revert k h p. induction os as [| o0 os IH]; intros k h p Hnd Hp He; [discriminate |].
  apply NoDup_cons in Hnd as [Hnot Hnd]. destruct p as [| p]; simpl in *.
  - injection Hp as ->. rewrite obj_stamp_other by exact Hnot.
    rewrite Nat.add_0_r. apply obj_set_i_same. exact He.
  - assert (Hne : o0 <> o).
    { intros ->. apply Hnot. eapply list_elem_of_lookup_2. exact Hp. }
    rewrite (IH (S k) (obj_set_i o0 k h) p Hnd Hp).
    + do 3 f_equal. lia.
    + rewrite obj_set_i_other by exact Hne. exact He.
Qed.

Lemma obj_cache_set_positions (new_store : list obj) (m : Memory) :
  NoDup new_store ->
  (forall o, o ∈ new_store -> is_Some (heap m !! o)) ->
  positions_ok (obj_cache_set new_store m).
Proof.
  intros Hnd Halloc p o Hp. simpl in *.
  destruct (Halloc o (list_elem_of_lookup_2 _ _ _ Hp)) as [e He].
  exists (set_i e (Some (Z.of_nat p))). split; [| reflexivity].
  apply (obj_stamp_lookup new_store 0 (heap m) p o e Hnd Hp He).
Qed.

(** A Cache whose positions agree holds no object twice. *)
Lemma positions_ok_NoDup (m : Memory) : positions_ok m -> NoDup (store m).
Proof.
  intros Hok. apply NoDup_alt. intros p q o Hp Hq.
  destruct (Hok p o Hp) as [e [He Hi]]. destruct (Hok q o Hq) as [e' [He' Hi']].
  rewrite He in He'. injection He' as <-. rewrite Hi in Hi'. injection Hi' as Hpq. lia.
Qed.

Lemma positions_ok_allocated (m : Memory) (o : obj) :
  positions_ok m -> o ∈ store m -> is_Some (heap m !! o).
Proof.
  intros Hok Ho. apply list_elem_of_lookup_1 in Ho as [p Hp].
  destruct (Hok p o Hp) as [e [He _]]. exists e. exact He.
Qed.

Lemma obj_find_source_lt (h : gmap obj GenericItem) (src : string) (os : list obj) (k : nat) :
  obj_find_source h src os = Some k -> (k < length os)%nat.
Proof.
  revert k. induction os as [| o os IH]; intros k; simpl; [discriminate |].
  destruct (match h !! o with Some e => String.eqb (source e) src | None => false end).
  - intros [= <-]. lia.
  - destruct (obj_find_source h src os) as [k' |]; [| discriminate].
    intros [= <-]. specialize (IH k' eq_refl). lia.
Qed.

Lemma obj_cache_update_positions (old_source : string) (new_entry : obj) (m : Memory) :
  positions_ok m -> new_entry ∉ store m -> is_Some (heap m !! new_entry) ->
  positions_ok (obj_cache_update old_source new_entry m).
Proof.
  intros Hok Hfresh [e0 He0]. unfold obj_cache_update.
  destruct (obj_find_source (heap m) old_source (store m)) as [k |] eqn:Ek.
  - apply obj_find_source_lt in Ek. intros p o. simpl.
    destruct (decide (p = k)) as [-> | Hpk].
    + rewrite list_lookup_insert_eq by exact Ek. intros [= <-].
      exists (set_i e0 (Some (Z.of_nat k))). split; [| reflexivity].
      apply obj_set_i_same. exact He0.
    + rewrite list_lookup_insert_ne by congruence. intros Hp.
      destruct (Hok p o Hp) as [e [He Hi]]. exists e. split; [| exact Hi].
      rewrite obj_set_i_other; [exact He |].
      intros ->. apply Hfresh. eapply list_elem_of_lookup_2. exact Hp.
  - apply obj_cache_set_positions.
    + apply NoDup_app. split; [apply positions_ok_NoDup; exact Hok |]. split.
      * intros o Ho Hin. apply list_elem_of_singleton in Hin as ->. exact (Hfresh Ho).
      * apply NoDup_singleton.
    + intros o Ho. apply elem_of_app in Ho as [Ho | Ho].
      * apply positions_ok_allocated; assumption.
      * apply list_elem_of_singleton in Ho as ->. exists e0. exact He0.
Qed.

(** On pairwise distinct objects, [set] does to the entries what
    [cache_set] does to them taken by value. *)
Lemma obj_cache_set_represents (os : list obj) (m : Memory) (l : list PickleMappingEntry) :
  NoDup os -> represents (heap m) os l ->
  represents (heap (obj_cache_set os m)) os (cache_set l).
Proof.
  intros Hnd Hrep. apply Forall2_same_length_lookup. split.
  - rewrite cache_set_length. eapply Forall2_length. exact Hrep.
  - intros p o e' Hp. rewrite cache_set_lookup.
    destruct (l !! p) as [e |] eqn:El; simpl; [| discriminate].
    intros [= <-]. simpl.
    apply (obj_stamp_lookup os 0 (heap m) p o e Hnd Hp).
    eapply (Forall2_lookup_lr _ _ _ _ _ _ Hrep); eassumption.
Qed.

(** C4, as stated, fails: a sequence that holds one object at both of
    its positions leaves that object with [i = 1] at position 0. *)
Lemma cache_set_shared_object :
  store (obj_cache_set [7%nat; 7%nat] shared_twice) !! 0%nat = Some 7%nat /\
  i <$> heap (obj_cache_set [7%nat; 7%nat] shared_twice) !! 7%nat = Some (Some 1) /\
  ~ positions_ok (obj_cache_set [7%nat; 7%nat] shared_twice).
Proof.
  assert (Hi : i <$> heap (obj_cache_set [7%nat; 7%nat] shared_twice) !! 7%nat
               = Some (Some 1)) by (vm_compute; reflexivity).
  split; [reflexivity |]. split; [exact Hi |].
  intros Hok. destruct (Hok 0%nat 7%nat eq_refl) as [e [He Hp]].
  rewrite He in Hi. simpl in Hi. rewrite Hp in Hi. discriminate.
Qed.

(** C4, amended. Whatever [i] the entries carried before:
    [set] on a sequence of pairwise distinct entry objects, [append] of
    entry objects that keeps the sequence pairwise distinct, [clear],
    and the update of a Cache whose positions agree by a new entry object
    that the Cache does not hold, each leave a Cache in which the entry
    at every position [p] has [i = p]. *)
Theorem cache_writes_stamp_positions (m : Memory) :
  (forall new_store,
     NoDup new_store -> (forall o, o ∈ new_store -> is_Some (heap m !! o)) ->
     positions_ok (obj_cache_set new_store m)) /\
  (forall entries,
     NoDup (store m ++ entries) ->
     (forall o, o ∈ store m ++ entries -> is_Some (heap m !! o)) ->
     positions_ok (obj_augmentCache entries m)) /\
  positions_ok (obj_clearCache m) /\
  (forall old_source new_entry,
     positions_ok m -> new_entry ∉ store m -> is_Some (heap m !! new_entry) ->
     positions_ok (obj_cache_update old_source new_entry m)).
Proof.
  split; [| split; [| split]].
  - intros new_store. apply obj_cache_set_positions.
  - intros entries. unfold obj_augmentCache. apply obj_cache_set_positions.
  - intros p o Hp. discriminate.
  - intros old_source new_entry. apply obj_cache_update_positions.
Qed.

Lemma cache_writes_stamp_positions_witness :
  positions_ok (obj_cache_set [2%nat; 1%nat] two_objects) /\
  positions_ok (obj_clearCache two_objects).
Proof.
  destruct (cache_writes_stamp_positions two_objects) as [Hset [_ [Hclear _]]].
  split; [apply Hset | exact Hclear].
  - apply NoDup_cons. split; [| apply NoDup_singleton].
    intros Hin. apply list_elem_of_singleton in Hin. discriminate.
  - intros o Ho. apply elem_of_cons in Ho as [-> | Ho].
    + exists (set_i entry_x2 (Some (-3))). reflexivity.
    + apply list_elem_of_singleton in Ho as ->.
      exists (set_i entry_x1 (Some 40)). reflexivity.
Defined.

(** ** Dictionaries *)

Section DictFacts.
Context {V : Type}.
Implicit Types (d : dict V) (k : string) (v : V).

Lemma dict_get_In d k v : dict_get k d = Some v -> In (k, v) d.
Proof.
  induction d as [| [k' v'] d IH]; simpl; [discriminate |].
  destruct (String.eqb k k') eqn:E.
  - apply String.eqb_eq in E as ->. intros [= ->]. left. reflexivity.
  - intros Hg. right. apply IH. exact Hg.
Qed.

Lemma dict_get_None d k : dict_get k d = None <-> ~ In k (dict_keys d).
Proof.
  induction d as [| [k' v'] d IH]; simpl.
  - split; [intros _ [] | reflexivity].
  - destruct (String.eqb k k') eqn:E.
    + apply String.eqb_eq in E as ->. split; [discriminate |].
      intros Hn. exfalso. apply Hn. left. reflexivity.
    + apply String.eqb_neq in E. rewrite IH. split.
      * intros Hn [Heq | Hin]; [congruence | exact (Hn Hin)].
      * intros Hn Hin. apply Hn. right. exact Hin.
Qed.

Lemma dict_mem_true d k : dict_mem k d = true <-> In k (dict_keys d).
Proof.
  unfold dict_mem. destruct (dict_get k d) as [v |] eqn:E.
  - split; [intros _ | reflexivity].
    apply dict_get_In in E. apply (in_map fst) in E. exact E.
  - split; [discriminate |]. intros Hin. apply dict_get_None in E. contradiction.
Qed.

Lemma dict_mem_false d k : dict_mem k d = false <-> ~ In k (dict_keys d).
Proof.
  rewrite <- dict_mem_true. destruct (dict_mem k d); split; congruence.
Qed.

Lemma dict_ok_cons d k v : dict_ok ((k, v) :: d) <-> ~ In k (dict_keys d) /\ dict_ok d.
Proof.
  unfold dict_ok. simpl. rewrite NoDup_cons, list_elem_of_In. reflexivity.
Qed.

Lemma dict_get_of_In d k v : dict_ok d -> In (k, v) d -> dict_get k d = Some v.
Proof.
  induction d as [| [k' v'] d IH]; simpl; [intros _ [] |].
  intros Hok. apply dict_ok_cons in Hok as [Hnot Hok]. intros [[= -> ->] | Hin].
  - rewrite String.eqb_refl. reflexivity.
  - destruct (String.eqb k k') eqn:E.
    + apply String.eqb_eq in E as ->. exfalso. apply Hnot.
      apply (in_map fst) in Hin. exact Hin.
    + apply IH; assumption.
Qed.

Lemma dict_set_In d k v k' v' :
  In (k', v') (dict_set k v d) -> (k', v') = (k, v) \/ In (k', v') d.
Proof.
  induction d as [| [k0 v0] d IH]; simpl.
  - intros [Heq | []]. left. symmetry. exact Heq.
  - destruct (String.eqb k k0).
    + intros [Heq | Hin]; [left; symmetry; exact Heq | right; right; exact Hin].
    + intros [Heq | Hin]; [right; left; exact Heq |].
      destruct (IH Hin) as [Heq | Hin']; [left; exact Heq | right; right; exact Hin'].
Qed.

Lemma dict_set_keys d k v :
  dict_keys (dict_set k v d) = if dict_mem k d then dict_keys d else dict_keys d ++ [k].
Proof.
  induction d as [| [k0 v0] d IH]; simpl; [reflexivity |].
  unfold dict_mem. simpl. destruct (String.eqb k k0) eqn:E.
  - apply String.eqb_eq in E as ->. reflexivity.
  - simpl. rewrite IH. unfold dict_mem. destruct (dict_get k d); reflexivity.
Qed.

Lemma dict_set_ok d k v : dict_ok d -> dict_ok (dict_set k v d).
Proof.
  unfold dict_ok. rewrite dict_set_keys. intros Hok.
  destruct (dict_mem k d) eqn:E; [exact Hok |].
  apply dict_mem_false in E. apply NoDup_app. split; [exact Hok |]. split.
  - intros x Hx Hin. apply list_elem_of_singleton in Hin as ->.
    apply E. apply list_elem_of_In. exact Hx.
  - apply NoDup_singleton.
Qed.

Lemma dict_set_get d k v : dict_get k (dict_set k v d) = Some v.
Proof.
  induction d as [| [k0 v0] d IH]; simpl.
  - rewrite String.eqb_refl. reflexivity.
  - destruct (String.eqb k k0) eqn:E; simpl.
    + rewrite String.eqb_refl. reflexivity.
    + rewrite E. exact IH.
Qed.

Lemma dict_set_fresh d k v : dict_mem k d = false -> dict_set k v d = d ++ [(k, v)].
Proof.
  unfold dict_mem. induction d as [| [k0 v0] d IH]; simpl; [reflexivity |].
  destruct (String.eqb k k0); [discriminate |].
  intros Hm. rewrite IH by exact Hm. reflexivity.
Qed.

Lemma dict_remove_In d k x : In x (dict_remove k d) -> In x d.
Proof.
  induction d as [| [k0 v0] d IH]; simpl; [intros [] |].
  destruct (String.eqb k k0).
  - intros Hin. right. exact Hin.
  - intros [Heq | Hin]; [left; exact Heq | right; apply IH; exact Hin].
Qed.

Lemma dict_remove_ok d k : dict_ok d -> dict_ok (dict_remove k d).
Proof.
  induction d as [| [k0 v0] d IH]; simpl; [intros Hok; exact Hok |].
  intros Hok. apply dict_ok_cons in Hok as [Hnot Hok].
  destruct (String.eqb k k0); [exact Hok |].
  apply dict_ok_cons. split; [| apply IH; exact Hok].
  intros Hin. apply Hnot. apply in_map_iff in Hin as [[k1 v1] [Hk Hin]].
  simpl in Hk. subst k1. apply dict_remove_In in Hin.
  apply (in_map fst) in Hin. exact Hin.
Qed.
End DictFacts.

(** ** The Index keeps every entry under its own source *)

Lemma index_sound_intro (d : dict PickleMappingEntry) :
  dict_ok d -> keys_agree d -> index_sound d.
Proof.
  intros Hok Hkeys. split; [exact Hok |]. split; [exact Hkeys |].
  intros k e Hin. rewrite (Hkeys k e Hin). apply dict_get_of_In; assumption.
Qed.

Lemma index_sound_empty : index_sound [].
Proof. apply index_sound_intro; [apply NoDup_nil_2 | intros k e []]. Qed.

Lemma index_sound_set (d : dict PickleMappingEntry) (e : PickleMappingEntry) :
  index_sound d -> index_sound (dict_set (source e) e d).
Proof.
  intros [Hok [Hkeys _]]. apply index_sound_intro.
  - apply dict_set_ok. exact Hok.
  - intros k e' Hin. apply dict_set_In in Hin as [[= -> ->] | Hin].
    + reflexivity.
    + apply Hkeys. exact Hin.
Qed.

Lemma index_sound_remove (d : dict PickleMappingEntry) (k : string) :
  index_sound d -> index_sound (dict_remove k d).
Proof.
  intros [Hok [Hkeys _]]. apply index_sound_intro.
  - apply dict_remove_ok. exact Hok.
  - intros k' e Hin. apply Hkeys. eapply dict_remove_In. exact Hin.
Qed.

Lemma entry_source (p : Problem) : source (entry p) = source p.
Proof. reflexivity. Qed.

Lemma rebuild_step_sound (randrange : nat -> Z) (s : rebuild_state) (p : Problem) :
  index_sound (rb_d s) -> index_sound (rb_d (rebuild_step randrange s p)).
Proof.
  intros Hs. unfold rebuild_step. destruct (dict_mem (source p) (rb_d s)); cbn [rb_d].
  - apply (index_sound_set (rb_d s)
             (entry (problem_set_source p
                       ("DUPLICATE " +:+ str_of_int (randrange (rb_calls s)))))).
    exact Hs.
  - apply (index_sound_set (rb_d s) (entry p)). exact Hs.
Qed.

Lemma rebuild_fold_sound (randrange : nat -> Z) (problems : list Problem) (s : rebuild_state) :
  index_sound (rb_d s) -> index_sound (rb_d (fold_left (rebuild_step randrange) problems s)).
Proof.
  revert s. induction problems as [| p ps IH]; intros s Hs; simpl; [exact Hs |].
  apply IH. apply rebuild_step_sound. exact Hs.
Qed.

Lemma updateEntryByProblem_sound (old_entry : PickleMappingEntry) (new_problem : Problem)
  (st st' : Stores) (r : PickleMappingEntry) :
  index_sound (index st) ->
  updateEntryByProblem old_entry new_problem st = (Ok r, st') ->
  index_sound (index st').
Proof.
  intros Hs. unfold updateEntryByProblem. cbv zeta.
  destruct (negb _).
  - unfold dict_del. destruct (dict_mem (source old_entry) (index st)); [| discriminate].
    destruct (cache_update _ _ _) as [l' e']. intros [= _ <-].
    apply (index_sound_set (dict_remove (source old_entry) (index st))
             (entry (problem_set_i new_problem (i old_entry)))).
    apply index_sound_remove. exact Hs.
  - destruct (cache_update _ _ _) as [l' e']. intros [= _ <-].
    apply (index_sound_set (index st) (entry (problem_set_i new_problem (i old_entry)))).
    exact Hs.
Qed.

(** C3. From an Index that keeps every entry under its own source,
    addEntryToIndex, addProblemToIndex and a successful
    updateEntryByProblem lead to such an Index again, and rebuildIndex
    builds one from any list of problems: every entry is stored under
    the key equal to its source, and looking up the source of a stored
    entry returns that entry. *)
Theorem index_operations_keep_keys (st : Stores) :
  dict_ok (index st) -> keys_agree (index st) ->
  (forall e, index_sound (index (addEntryToIndex e st))) /\
  (forall p, index_sound (index (addProblemToIndex p st).2)) /\
  (forall old_entry new_problem r st',
     updateEntryByProblem old_entry new_problem st = (Ok r, st') ->
     index_sound (index st')) /\
  (forall randrange problems,
     index_sound (index (rebuildIndex randrange problems st).1)).
Proof.
  intros Hok Hkeys. pose proof (index_sound_intro _ Hok Hkeys) as Hs.
  split; [| split; [| split]].
  - intros e. apply index_sound_set. exact Hs.
  - intros p. apply (index_sound_set (index st) (entry p)). exact Hs.
  - intros old_entry new_problem r st'. apply updateEntryByProblem_sound. exact Hs.
  - intros randrange problems.
    apply (rebuild_fold_sound randrange problems). apply index_sound_empty.
Qed.

Lemma index_operations_keep_keys_witness :
  index_sound (index (addEntryToIndex (mk_entry "X3" [] None) stores_x1_x2)) /\
  index_sound
    (index (rebuildIndex (fun _ => 1000000)
              [problem_of entry_x1; problem_of entry_x1] stores_x1_x2).1).
Proof.
  assert (Hok : dict_ok (index stores_x1_x2)).
  { apply dict_ok_cons. split.
    - intros [Heq | []]. discriminate.
    - apply dict_ok_cons. split; [intros [] | apply NoDup_nil_2]. }
  assert (Hkeys : keys_agree (index stores_x1_x2)).
  { intros k e [[= <- <-] | [[= <- <-] | []]]; reflexivity. }
  destruct (index_operations_keep_keys stores_x1_x2 Hok Hkeys) as [Hadd [_ [_ Hre]]].
  split; [apply Hadd | apply Hre].
Defined.

(** ** Search terms *)

Lemma startswith_spec (s p : string) :
  startswith s p = true <-> exists post, s = p +:+ post.
Proof.
  revert s. induction p as [| a p IH]; intros s; simpl.
  - split; [intros _; exists s; reflexivity | reflexivity].
  - destruct s as [| b s]; simpl.
    + split; [discriminate | intros [post Hp]; discriminate].
    + rewrite andb_true_iff, IH. split.
      * intros [Hab [post ->]]. apply Ascii.eqb_eq in Hab as ->.
        exists post. reflexivity.
      * intros [post [= -> ->]]. split; [apply Ascii.eqb_refl | exists post; reflexivity].
Qed.

Lemma str_in_spec (sub s : string) : str_in sub s = true <-> occurs_in sub s.
Proof.
  unfold occurs_in. induction s as [| c s IH].
  - simpl. rewrite orb_false_r, startswith_spec. split.
    + intros [post Hp]. exists EmptyString, post. exact Hp.
    + intros [[| c pre] [post Hp]]; [exists post; exact Hp | discriminate].
  - cbn [str_in]. rewrite orb_true_iff, startswith_spec, IH. split.
    + intros [[post Hp] | [pre [post Hp]]].
      * exists EmptyString, post. exact Hp.
      * exists (String c pre), post. simpl. rewrite Hp. reflexivity.
    + intros [[| c' pre] [post Hp]].
      * left. exists post. exact Hp.
      * right. simpl in Hp. injection Hp as -> ->. exists pre, post. reflexivity.
Qed.

Lemma append_nil_r (s : string) : s +:+ "" = s.
Proof.
  induction s as [| c s IH]; [reflexivity |].
  change (String c (s +:+ "") = String c s). rewrite IH. reflexivity.
Qed.

Lemma list_in_spec (x : string) (l : list string) : list_in x l = true <-> In x l.
Proof.
  unfold list_in. rewrite existsb_exists. split.
  - intros [y [Hy Heq]]. apply String.eqb_eq in Heq as ->. exact Hy.
  - intros Hin. exists x. split; [exact Hin | apply String.eqb_refl].
Qed.

(** The text that a term is looked for in. *)
Lemma blob_text (e : PickleMappingEntry) :
  blob e = match author e with
           | Some a => (source e +:+ " " +:+ desc e) +:+ " " +:+ a
           | None => source e +:+ " " +:+ desc e
           end.
Proof. unfold blob. destruct (author e); reflexivity. Qed.

Lemma hasTerm_cases `{Rc} (e : PickleMappingEntry) (term : string) :
  hasTerm e term = true <->
  occurs_in (lower term) (lower (blob e)) \/ In term (tags e) \/
  occurs_in (upper term) (inferPUID (source e)).
Proof.
  unfold hasTerm. rewrite !orb_true_iff, !str_in_spec, list_in_spec. tauto.
Qed.

(** C8, as stated, fails: the term "O6" passes on an entry whose PUID
    is "00USAMO6", although it does not occur in the text, is no tag,
    and its uppercase form is not equal to the PUID. *)
Lemma hasTerm_part_of_puid :
  @hasTerm rc_sample eq_left "O6" = true /\
  ~ (occurs_in (lower "O6") (lower (blob eq_left)) \/
     In "O6" (tags eq_left) \/
     upper "O6" = @inferPUID rc_sample (source eq_left)).
Proof.
  split; [reflexivity |]. intros [Hocc | [Hin | Heq]].
  - apply str_in_spec in Hocc. vm_compute in Hocc. discriminate.
  - apply list_in_spec in Hin. vm_compute in Hin. discriminate.
  - vm_compute in Heq. discriminate.
Qed.

(** C8, amended. A term passes exactly when its lowercase form occurs
    in the lowercase form of source + " " + description (+ " " + author
    when there is an author), or it is one of the tags as written, or
    its uppercase form occurs in the PUID of the source. *)
Theorem hasTerm_iff `{Rc} (e : PickleMappingEntry) (term : string) :
  hasTerm e term = true <->
  occurs_in (lower term)
    (lower match author e with
           | Some a => (source e +:+ " " +:+ desc e) +:+ " " +:+ a
           | None => source e +:+ " " +:+ desc e
           end) \/
  In term (tags e) \/
  occurs_in (upper term) (inferPUID (source e)).
Proof. rewrite <- blob_text. apply hasTerm_cases. Qed.

(** A term whose uppercase form is the whole PUID passes. *)
Lemma hasTerm_whole_puid `{Rc} (e : PickleMappingEntry) (term : string) :
  upper term = inferPUID (source e) -> hasTerm e term = true.
Proof.
  intros Heq. apply hasTerm_cases. right. right. rewrite <- Heq.
  exists EmptyString, EmptyString. simpl.
  symmetry. apply append_nil_r.
Qed.

(** ** runSearch *)

Lemma values_of_pointwise (getitem : pykey -> result PickleMappingEntry)
  (keys : list pykey) (vals : list PickleMappingEntry) :
  Forall2 (fun key v => getitem key = Ok v) keys vals ->
  values_of getitem keys = Ok vals.
Proof.
  induction 1 as [| key v keys vals Hkv _ IH]; simpl; [reflexivity |].
  rewrite Hkv, IH. reflexivity.
Qed.

(** [index.values()] gives the values of the dictionary in its order. *)
Lemma index_values_ok (d : dict PickleMappingEntry) :
  dict_ok d -> index_values d = Ok (dict_values d).
Proof.
  intros Hok. unfold index_values. apply values_of_pointwise.
  assert (Hall : forall k v, In (k, v) d -> dict_getitem k d = Ok v).
  { intros k v Hin. unfold dict_getitem. rewrite (dict_get_of_In d k v Hok Hin).
    reflexivity. }
  clear Hok. unfold dict_keys, dict_values.
  assert (Hsub : forall sub,
            (forall k v, In (k, v) sub -> In (k, v) d) ->
            Forall2 (fun key v => index_getitem d key = Ok v)
              (map KStr (map fst sub)) (map snd sub)).
  { induction sub as [| [k v] sub IH]; intros Hin; simpl; constructor.
    - simpl. apply Hall, Hin. left. reflexivity.
    - apply IH. intros k' v' Hin'. apply Hin. right. exact Hin'. }
  apply Hsub. intros k v Hin. exact Hin.
Qed.

Lemma cache_values_empty : cache_values [] = Ok [].
Proof. reflexivity. Qed.

(** On a Cache that holds an entry, [cache.values()] asks the list for
    the item at an entry and gets a TypeError. *)
Lemma cache_values_raises (e : PickleMappingEntry) (l : list PickleMappingEntry) :
  cache_values (e :: l) = Raise TypeError.
Proof. reflexivity. Qed.

Lemma length_zero_nil {A} (l : list A) : (0 <? length l)%nat = false -> l = [].
Proof. destruct l; [reflexivity | discriminate]. Qed.

(** What runSearch does once the scan has given its values. *)
Lemma runSearch_scanned `{Rc} (q : Query) (st : Stores) (vs : list PickleMappingEntry) :
  scanned q st = Ok vs ->
  let sorted := sort_result q (List.filter (matches q) vs) in
  runSearch q st =
    if (0 <? length sorted)%nat
    then (Ok (cache_set sorted), setCache sorted st)
    else (Ok [], st).
Proof.
  intros Hs. unfold runSearch. rewrite Hs. cbv zeta.
  destruct (0 <? length _)%nat eqn:E; [reflexivity |].
  rewrite (length_zero_nil _ E). reflexivity.
Qed.

(** An exception leaves both stores as they were. *)
Lemma runSearch_raise_keeps_stores `{Rc} (q : Query) (st st' : Stores) (ex : exn) :
  runSearch q st = (Raise ex, st') -> st' = st.
Proof.
  unfold runSearch. destruct (scanned q st) as [vs | ex'].
  - cbv zeta. destruct (0 <? length _)%nat; discriminate.
  - intros [= _ <-]. reflexivity.
Qed.

(** With [refine] set and an entry in the Cache, runSearch raises. *)
Lemma runSearch_refine_raises `{Rc} (q : Query) (st : Stores) :
  refine q = true -> cache st <> [] -> runSearch q st = (Raise TypeError, st).
Proof.
  intros Hr Hne. unfold runSearch, scanned. rewrite Hr.
  destruct (cache st) as [| e l]; [congruence |]. reflexivity.
Qed.

(** C2 at its failing input: asked to search the current Cache, which
    holds the entry X1, with no filter at all, runSearch raises a
    TypeError and returns no entry. *)
Theorem runSearch_current_cache_raises :
  @runSearch rc_sample (all_of true) stores_cached = (Raise TypeError, stores_cached).
Proof. reflexivity. Qed.

(** ** Sorting *)

Section SortFacts.
Context {A : Type} (lt : A -> A -> bool).

Lemma sort_insert_perm (x : A) (l : list A) : Permutation (sort_insert lt x l) (x :: l).
Proof.
  induction l as [| y l IH]; simpl; [reflexivity |].
  destruct (lt y x); [| reflexivity].
  rewrite IH. apply perm_swap.
Qed.

Lemma list_sort_perm (l : list A) : Permutation (list_sort lt l) l.
Proof.
  induction l as [| x l IH]; simpl; [reflexivity |].
  rewrite sort_insert_perm. apply perm_skip. exact IH.
Qed.

Hypothesis lt_asym : forall a b, lt a b = true -> lt b a = false.
Hypothesis le_trans :
  forall a b c, lt b a = false -> lt c b = false -> lt c a = false.

Lemma sort_insert_sorted (x : A) (l : list A) :
  StronglySorted (fun a b => lt b a = false) l ->
  StronglySorted (fun a b => lt b a = false) (sort_insert lt x l).
Proof.
  induction 1 as [| y l Hs IH Hy]; simpl.
  - constructor; constructor.
  - destruct (lt y x) eqn:E.
    + constructor; [exact IH |].
      rewrite sort_insert_perm. constructor; [apply lt_asym; exact E | exact Hy].
    + constructor; [constructor; assumption |].
      constructor; [exact E |].
      eapply Forall_impl; [exact Hy |]. intros z Hz. simpl in Hz.
      apply (le_trans x y z); assumption.
Qed.

Lemma list_sort_sorted (l : list A) :
  StronglySorted (fun a b => lt b a = false) (list_sort lt l).
Proof.
  induction l as [| x l IH]; simpl; [constructor |].
  apply sort_insert_sorted. exact IH.
Qed.
End SortFacts.

(** A strict total order gives a transitive "not after". *)
Lemma not_after_trans {K : Type} (lt : K -> K -> bool) :
  (forall a b c, lt a b = true -> lt b c = true -> lt a c = true) ->
  (forall a b, lt a b = false -> lt b a = false -> a = b) ->
  forall a b c, lt b a = false -> lt c b = false -> lt c a = false.
Proof.
  intros Htrans Htotal a b c Hab Hbc.
  destruct (lt c a) eqn:Hca; [| reflexivity].
  destruct (lt a b) eqn:Hlt.
  - rewrite (Htrans c a b Hca Hlt) in Hbc. discriminate.
  - rewrite <- (Htotal a b Hlt Hab) in Hbc. congruence.
Qed.

Lemma ascii_compare_lt_trans (a b c : ascii) :
  (a ?= b)%char = Lt -> (b ?= c)%char = Lt -> (a ?= c)%char = Lt.
Proof. unfold Ascii.compare. rewrite !N.compare_lt_iff. lia. Qed.

Lemma string_compare_lt_trans (s t u : string) :
  (s ?= t)%string = Lt -> (t ?= u)%string = Lt -> (s ?= u)%string = Lt.
Proof.
  revert t u. induction s as [| a s IH]; intros [| b t] [| c u]; simpl;
    try discriminate; try reflexivity.
  destruct (a ?= b)%char eqn:Eab; try discriminate.
  - apply Ascii.compare_eq_iff in Eab as ->.
    destruct (b ?= c)%char; try discriminate; [apply IH | reflexivity].
  - destruct (b ?= c)%char eqn:Ebc; try discriminate.
    + apply Ascii.compare_eq_iff in Ebc as <-. rewrite Eab. reflexivity.
    + rewrite (ascii_compare_lt_trans a b c Eab Ebc). reflexivity.
Qed.

Lemma string_ltb_trans (s t u : string) :
  String.ltb s t = true -> String.ltb t u = true -> String.ltb s u = true.
Proof.
  unfold String.ltb.
  destruct (s ?= t)%string eqn:Est; try discriminate.
  destruct (t ?= u)%string eqn:Etu; try discriminate.
  rewrite (string_compare_lt_trans s t u Est Etu). reflexivity.
Qed.

Lemma string_ltb_total (s t : string) :
  String.ltb s t = false -> String.ltb t s = false -> s = t.
Proof.
  unfold String.ltb. rewrite (String.compare_antisym t s).
  destruct (s ?= t)%string eqn:E; simpl; try discriminate.
  intros _ _. apply String.compare_eq_iff. exact E.
Qed.

Lemma key_lt_trans (a b c : Z * Z * string) :
  key_lt a b = true -> key_lt b c = true -> key_lt a c = true.
Proof.
  destruct a as [[a1 a2] a3], b as [[b1 b2] b3], c as [[c1 c2] c3]. unfold key_lt.
  destruct (Z.eqb_spec a1 b1) as [-> | H1]; cbn [negb].
  - destruct (Z.eqb_spec b1 c1) as [-> | H1']; cbn [negb]; [| intros _ H; exact H].
    destruct (Z.eqb_spec a2 b2) as [-> | H2]; cbn [negb].
    + destruct (Z.eqb_spec b2 c2) as [-> | H2']; cbn [negb]; [| intros _ H; exact H].
      apply string_ltb_trans.
    + destruct (Z.eqb_spec b2 c2) as [-> | H2']; cbn [negb].
      * destruct (Z.eqb_spec a2 c2); [contradiction |]. intros H _. exact H.
      * rewrite !Z.ltb_lt. intros Hab Hbc.
        destruct (Z.eqb_spec a2 c2); [lia |]. cbn [negb]. apply Z.ltb_lt. lia.
  - destruct (Z.eqb_spec b1 c1) as [-> | H1']; cbn [negb].
    + destruct (Z.eqb_spec a1 c1); [contradiction |]. intros H _. exact H.
    + rewrite !Z.ltb_lt. intros Hab Hbc.
      destruct (Z.eqb_spec a1 c1); [lia |]. cbn [negb]. apply Z.ltb_lt. lia.
Qed.

Lemma key_lt_total (a b : Z * Z * string) :
  key_lt a b = false -> key_lt b a = false -> a = b.
Proof.
  destruct a as [[a1 a2] a3], b as [[b1 b2] b3]. unfold key_lt.
  rewrite (Z.eqb_sym b1 a1), (Z.eqb_sym b2 a2).
  destruct (Z.eqb_spec a1 b1) as [-> | H1]; cbn [negb].
  - destruct (Z.eqb_spec a2 b2) as [-> | H2]; cbn [negb].
    + intros Hab Hba. rewrite (string_ltb_total a3 b3 Hab Hba). reflexivity.
    + rewrite !Z.ltb_ge. lia.
  - rewrite !Z.ltb_ge. lia.
Qed.

Lemma sort_result_perm `{Rc} (q : Query) (l : list PickleMappingEntry) :
  Permutation (sort_result q l) l.
Proof. unfold sort_result. destruct (alph_sort q); apply list_sort_perm. Qed.

Lemma sort_result_sorted `{Rc} (q : Query) (l : list PickleMappingEntry) :
  StronglySorted (in_order q) (sort_result q l).
Proof.
  unfold sort_result, in_order. destruct (alph_sort q).
  - apply (list_sort_sorted source_lt).
    + intros a b. apply string_ltb_asym.
    + intros a b c. unfold source_lt.
      apply (not_after_trans String.ltb string_ltb_trans string_ltb_total).
  - apply (list_sort_sorted item_lt).
    + intros a b. apply key_lt_asym.
    + intros a b c. unfold item_lt.
      apply (not_after_trans key_lt key_lt_trans key_lt_total).
Qed.

(** An entry matches a query exactly when every filter of the query
    passes on it. *)
Lemma matches_iff `{Rc} (q : Query) (e : PickleMappingEntry) :
  matches q e = true <->
  otis_ok q e = true /\
  (forall t, In t (q_tags q) -> hasTag e t = true) /\
  (forall t, In t (terms q) -> hasTerm e t = true) /\
  (forall s, In s (sources q) -> hasSource e s = true) /\
  (forall a, In a (authors q) -> hasAuthor e a = true) /\
  startswith (path e) (q_path q) = true.
Proof.
  unfold matches. rewrite !andb_true_iff, !forallb_forall. tauto.
Qed.

(** Without a usage feed, or without a usage filter, every entry passes
    the usage test. *)
Lemma otis_ok_unset `{Rc} (q : Query) (e : PickleMappingEntry) :
  in_otis q = None \/ OTIS_EVIL_JSON = None -> otis_ok q e = true.
Proof.
  unfold otis_ok, otis_used_sources. intros [Hq | Hfeed].
  - rewrite Hq. reflexivity.
  - destruct (in_otis q); [rewrite Hfeed |]; reflexivity.
Qed.

(** Over the whole of an Index that keeps every entry under its own
    source runSearch returns, stamped with their places, the entries of
    the Index that match the query, in the order that the query asks
    for. *)
Lemma runSearch_full_index `{Rc} (q : Query) (st : Stores) :
  refine q = false -> dict_ok (index st) -> keys_agree (index st) ->
  exists sorted,
    (runSearch q st).1 = Ok (cache_set sorted) /\
    Permutation sorted (List.filter (matches q) (dict_values (index st))) /\
    (forall e, In e sorted <-> In e (dict_values (index st)) /\ matches q e = true) /\
    StronglySorted (in_order q) sorted.
Proof.
  intros Hr Hok _.
  assert (Hs : scanned q st = Ok (dict_values (index st))).
  { unfold scanned. rewrite Hr. apply index_values_ok. exact Hok. }
  exists (sort_result q (List.filter (matches q) (dict_values (index st)))).
  split; [| split; [| split]].
  - rewrite (runSearch_scanned q st _ Hs). cbv zeta.
    destruct (0 <? length _)%nat eqn:E; [reflexivity |].
    rewrite (length_zero_nil _ E). reflexivity.
  - apply sort_result_perm.
  - intros e. rewrite <- filter_In. split; apply Permutation_in.
    + apply sort_result_perm.
    + symmetry. apply sort_result_perm.
  - apply sort_result_sorted.
Qed.

(** *** What a search leaves in the Cache *)

Lemma keys_agree_sources (d : dict PickleMappingEntry) :
  keys_agree d -> map (fun e : PickleMappingEntry => source e) (dict_values d) = dict_keys d.
Proof.
  unfold dict_values, dict_keys. induction d as [| [k e] d IH]; intros Hk; [reflexivity |].
  cbn [map fst snd]. rewrite (Hk k e (or_introl eq_refl)). f_equal.
  apply IH. intros k' e' Hin. apply Hk. right. exact Hin.
Qed.

Lemma NoDup_map_filter {A B} (f : A -> B) (g : A -> bool) (l : list A) :
  NoDup (map f l) -> NoDup (map f (List.filter g l)).
Proof.
  induction l as [| x l IH]; [intros Hnd; exact Hnd |].
  cbn [map List.filter]. intros Hnd. apply NoDup_cons in Hnd as [Hx Hnd].
  destruct (g x); [| apply IH; exact Hnd].
  cbn [map]. apply NoDup_cons. split; [| apply IH; exact Hnd].
  intros Hin. apply Hx. apply list_elem_of_In in Hin. apply list_elem_of_In.
  apply in_map_iff in Hin as [y [Hy Hin]]. apply filter_In in Hin as [Hin _].
  apply in_map_iff. exists y. split; assumption.
Qed.

Lemma cache_set_sources (l : list PickleMappingEntry) :
  map (fun e : PickleMappingEntry => source e) (cache_set l)
  = map (fun e : PickleMappingEntry => source e) l.
Proof.
  apply list_eq. intros p.
  change (map (fun e : PickleMappingEntry => source e)) with (fmap (M := list) source).
  rewrite !list_lookup_fmap, cache_set_lookup. destruct (l !! p); reflexivity.
Qed.

(** The entries that a scan yields over an Index that keeps every
    entry under its own source have pairwise different sources: no
    entry, and so no entry object, comes twice. *)
Lemma scanned_sources_distinct `{Rc} (q : Query) (st : Stores)
  (vs : list PickleMappingEntry) :
  dict_ok (index st) -> keys_agree (index st) -> scanned q st = Ok vs ->
  NoDup (map (fun e : PickleMappingEntry => source e) vs).
Proof.
  intros Hok Hkeys. unfold scanned. destruct (refine q).
  - destruct (cache st) as [| e l]; [| discriminate].
    intros [= <-]. apply NoDup_nil_2.
  - rewrite (index_values_ok _ Hok). intros [= <-].
    rewrite (keys_agree_sources _ Hkeys). exact Hok.
Qed.

(** C1. Over an Index that keeps every entry under its own source,
    when runSearch returns a list: the list is the sorted list of the
    matching entries with every entry stamped with its index; a
    non-empty list is what the Cache then holds, every entry with [i]
    equal to its index in the list (so numbered from 1 outside); an
    empty list leaves the Cache as it was. The entries of the list have
    pairwise different sources, and the Index is the same in both
    cases. *)
Theorem runSearch_overwrites_cache `{Rc} (q : Query) (st st' : Stores)
  (res : list PickleMappingEntry) :
  dict_ok (index st) -> keys_agree (index st) ->
  runSearch q st = (Ok res, st') ->
  index st' = index st /\
  (exists vs, scanned q st = Ok vs /\
              res = cache_set (sort_result q (List.filter (matches q) vs))) /\
  NoDup (map (fun e : PickleMappingEntry => source e) res) /\
  (res <> [] ->
     cache st' = res /\
     forall (p : nat) (e : PickleMappingEntry), res !! p = Some e ->
       i e = Some (Z.of_nat p) /\ n e = Some (Z.of_nat p + 1)) /\
  (res = [] -> cache st' = cache st).
Proof.
  intros Hok Hkeys Hrun.
  destruct (scanned q st) as [vs | ex] eqn:Hs;
    [| unfold runSearch in Hrun; rewrite Hs in Hrun; discriminate].
  pose proof (scanned_sources_distinct q st vs Hok Hkeys Hs) as Hnd.
  rewrite (runSearch_scanned q st vs Hs) in Hrun. cbv zeta in Hrun.
  set (sorted := sort_result q (List.filter (matches q) vs)) in *.
  assert (Hnd' : NoDup (map (fun e : PickleMappingEntry => source e) (cache_set sorted))).
  { rewrite cache_set_sources. unfold sorted.
    rewrite (Permutation_map _ (sort_result_perm q _)).
    apply NoDup_map_filter. exact Hnd. }
  destruct (0 <? length sorted)%nat eqn:E.
  - injection Hrun as <- <-. split; [reflexivity |].
    split; [exists vs; split; reflexivity |]. split; [exact Hnd' |]. split.
    + intros _. split; [reflexivity |]. intros p e Hp.
      pose proof (cache_set_positions _ p e Hp) as Hi.
      split; [exact Hi |]. unfold n. rewrite Hi. reflexivity.
    + intros Hnil. apply (f_equal length) in Hnil. rewrite cache_set_length in Hnil.
      cbn [length] in Hnil. rewrite Hnil in E. discriminate.
  - injection Hrun as <- <-. pose proof (length_zero_nil _ E) as Hnil.
    split; [reflexivity |]. split.
    { exists vs. split; [reflexivity |]. fold sorted. rewrite Hnil. reflexivity. }
    split; [apply NoDup_nil_2 |]. split.
    + intros Hne. congruence.
    + reflexivity.
Qed.

Lemma stores_x1_x2_sound :
  dict_ok (index stores_x1_x2) /\ keys_agree (index stores_x1_x2).
Proof.
  split.
  - apply dict_ok_cons. split.
    + intros [Heq | []]. discriminate.
    + apply dict_ok_cons. split; [intros [] | apply NoDup_nil_2].
  - intros k e [[= <- <-] | [[= <- <-] | []]]; reflexivity.
Qed.

Lemma runSearch_overwrites_cache_witness :
  cache (@runSearch rc_sample algebra_query stores_x1_x2).2 =
    [set_i entry_x1 (Some 0)] /\
  index (@runSearch rc_sample algebra_query stores_x1_x2).2 = index stores_x1_x2.
Proof.
  destruct (@runSearch_overwrites_cache rc_sample algebra_query stores_x1_x2
              (setCache [entry_x1] stores_x1_x2) [set_i entry_x1 (Some 0)]
              (proj1 stores_x1_x2_sound) (proj2 stores_x1_x2_sound) eq_refl)
    as [Hindex [_ [_ [Hfull _]]]].
  destruct Hfull as [Hcache _]; [discriminate |].
  split; [exact Hcache | exact Hindex].
Defined.

(** *** The same on objects

    An Index that leads every key to an object with that source leads
    no two keys to one object, so every selection from its values is a
    list of pairwise distinct objects, and [set] stamps it as
    [cache_set] stamps the entries taken by value. *)

Lemma index_objects_distinct (h : gmap obj GenericItem) (oidx : dict obj) :
  dict_ok oidx -> obj_keys_agree h oidx -> NoDup (dict_values oidx).
Proof.
  unfold dict_values. induction oidx as [| [k o] d IH]; intros Hok Hkeys.
  - apply NoDup_nil_2.
  - apply dict_ok_cons in Hok as [Hnot Hok]. cbn [map snd]. apply NoDup_cons. split.
    + intros Hin. apply list_elem_of_In, in_map_iff in Hin as [[k' o'] [Ho Hin]].
      cbn [snd] in Ho. subst o'.
      destruct (Hkeys k o (or_introl eq_refl)) as [e [He Hs]].
      destruct (Hkeys k' o (or_intror Hin)) as [e' [He' Hs']].
      rewrite He in He'. injection He' as <-. apply Hnot.
      rewrite <- Hs, Hs'. apply (in_map fst) in Hin. exact Hin.
    + apply IH; [exact Hok |]. intros k' o' Hin. apply Hkeys. right. exact Hin.
Qed.

Lemma obj_setCache_of_index_selection (m : Memory) (oidx : dict obj)
  (g : obj -> bool) (os : list obj) (l : list PickleMappingEntry) :
  dict_ok oidx -> obj_keys_agree (heap m) oidx ->
  Permutation os (List.filter g (dict_values oidx)) ->
  represents (heap m) os l ->
  positions_ok (obj_cache_set os m) /\
  represents (heap (obj_cache_set os m)) os (cache_set l).
Proof.
  intros Hok Hkeys Hperm Hrep.
  assert (Hnd : NoDup os).
  { rewrite Hperm. rewrite <- (map_id (List.filter g (dict_values oidx))).
    apply NoDup_map_filter. rewrite map_id.
    apply (index_objects_distinct (heap m)); assumption. }
  split.
  - apply obj_cache_set_positions; [exact Hnd |].
    intros o Ho. apply list_elem_of_lookup_1 in Ho as [p Hp].
    destruct (Forall2_lookup_l _ _ _ _ _ Hrep Hp) as [e [_ He]]. exists e. exact He.
  - apply obj_cache_set_represents; assumption.
Qed.

(** ** rebuildIndex *)

Section RebuildFacts.
Variable randrange : nat -> Z.

Lemma entry_items_keys (ps : list Problem) :
  dict_keys (entry_items ps) = map (fun p : Problem => source p) ps.
Proof. unfold dict_keys, entry_items. rewrite map_map. reflexivity. Qed.

Lemma rebuild_step_fresh (s : rebuild_state) (p : Problem) :
  ~ In (source p) (dict_keys (rb_d s)) ->
  rebuild_step randrange s p =
    {| rb_d := rb_d s ++ [(source p, entry p)];
       rb_calls := rb_calls s; rb_errors := rb_errors s |}.
Proof.
  intros Hnew. apply dict_mem_false in Hnew. unfold rebuild_step.
  rewrite Hnew, (dict_set_fresh _ _ _ Hnew). reflexivity.
Qed.

(** Problems whose sources are new and pairwise different are added in
    order, without a report. *)
Lemma rebuild_fold_fresh (ps : list Problem) (s : rebuild_state) :
  NoDup (map (fun p : Problem => source p) ps) ->
  (forall p : Problem, In p ps -> ~ In (source p) (dict_keys (rb_d s))) ->
  fold_left (rebuild_step randrange) ps s =
    {| rb_d := rb_d s ++ entry_items ps;
       rb_calls := rb_calls s; rb_errors := rb_errors s |}.
Proof.
  revert s. induction ps as [| p ps IH]; intros s Hnd Hnew; simpl.
  - rewrite app_nil_r. destruct s. reflexivity.
  - apply NoDup_cons in Hnd as [Hp Hnd']. rewrite list_elem_of_In in Hp.
    rewrite (rebuild_step_fresh s p) by (apply Hnew; left; reflexivity).
    rewrite IH; cbn [rb_d rb_calls rb_errors].
    + rewrite <- app_assoc. reflexivity.
    + exact Hnd'.
    + intros p' Hin. unfold dict_keys. rewrite map_app, in_app_iff. simpl.
      intros [Hold | [Heq | []]].
      * exact (Hnew p' (or_intror Hin) Hold).
      * apply Hp. rewrite Heq. apply (in_map (fun p : Problem => source p)). exact Hin.
Qed.

(** The second of two problems with one source goes under the
    placeholder, with one report. *)
Lemma rebuild_step_collision (s : rebuild_state) (p : Problem) :
  In (source p) (dict_keys (rb_d s)) ->
  let fake := "DUPLICATE " +:+ str_of_int (randrange (rb_calls s)) in
  ~ In fake (dict_keys (rb_d s)) ->
  rebuild_step randrange s p =
    {| rb_d := rb_d s ++ [(fake, entry (problem_set_source p fake))];
       rb_calls := S (rb_calls s);
       rb_errors := rb_errors s ++
                    [source p +:+ " is being repeated, replacing with " +:+ fake] |}.
Proof.
  intros Hold fake Hfake. apply dict_mem_true in Hold. apply dict_mem_false in Hfake.
  unfold rebuild_step. rewrite Hold. cbn [problem_set_source item source set_source].
  fold fake. rewrite (dict_set_fresh _ _ _ Hfake). reflexivity.
Qed.
End RebuildFacts.

Lemma entry_items_app (ps qs : list Problem) :
  entry_items (ps ++ qs) = entry_items ps ++ entry_items qs.
Proof. unfold entry_items. apply map_app. Qed.

Lemma entry_items_In (ps : list Problem) (p : Problem) :
  In p ps -> In (source p, entry p) (entry_items ps).
Proof. intros Hin. apply (in_map (fun p : Problem => (source p, entry p))). exact Hin. Qed.

(** What the loop leaves when exactly the problems [a] and [b] share a
    source and the placeholder is no problem's source. *)
Lemma rebuild_loop_one_collision (randrange : nat -> Z) (l1 l2 l3 : list Problem)
  (a b : Problem) :
  source a = source b ->
  NoDup (map (fun p : Problem => source p) (l1 ++ a :: l2 ++ l3)) ->
  ~ In (first_placeholder randrange)
       (map (fun p : Problem => source p) (l1 ++ a :: l2 ++ b :: l3)) ->
  rebuild_loop randrange (l1 ++ a :: l2 ++ b :: l3) =
    {| rb_d := entry_items
                 (l1 ++ a :: l2 ++
                  problem_set_source b (first_placeholder randrange) :: l3);
       rb_calls := 1;
       rb_errors := [source b +:+ " is being repeated, replacing with " +:+
                     first_placeholder randrange] |}.
Proof.
  intros Hab Hnd Hfake. unfold rebuild_loop.
  replace (l1 ++ a :: l2 ++ b :: l3) with ((l1 ++ a :: l2) ++ b :: l3) in *
    by (rewrite <- app_assoc; reflexivity).
  replace (l1 ++ a :: l2 ++ l3) with ((l1 ++ a :: l2) ++ l3) in Hnd
    by (rewrite <- app_assoc; reflexivity).
  rewrite map_app in Hnd. apply NoDup_app in Hnd as [Hnd12 [Hdisj Hnd3]].
  rewrite map_app, in_app_iff in Hfake. cbn [map In] in Hfake.
  rewrite fold_left_app. cbn [fold_left].
  rewrite (rebuild_fold_fresh randrange (l1 ++ a :: l2)); [| exact Hnd12 | intros p _ []].
  cbn [rb_d rb_calls rb_errors app].
  rewrite rebuild_step_collision; cbn [rb_d rb_calls rb_errors app].
  - fold (first_placeholder randrange).
    rewrite rebuild_fold_fresh; cbn [rb_d rb_calls rb_errors].
    + f_equal. unfold entry_items.
      repeat (rewrite map_app; cbn [map]).
      rewrite <- !app_assoc. reflexivity.
    + exact Hnd3.
    + intros p Hin. unfold dict_keys. rewrite map_app, in_app_iff. cbn [map In fst].
      intros [Hold | [Heq | []]].
      * fold (dict_keys (entry_items (l1 ++ a :: l2))) in Hold.
        rewrite entry_items_keys in Hold.
        apply (Hdisj (source p)); apply list_elem_of_In; [exact Hold |].
        apply (in_map (fun p : Problem => source p)). exact Hin.
      * apply Hfake. right. right. rewrite Heq.
        apply (in_map (fun p : Problem => source p)). exact Hin.
  - rewrite entry_items_keys, map_app, in_app_iff. right. left. exact Hab.
  - fold (first_placeholder randrange). rewrite entry_items_keys. tauto.
Qed.

(** C6, as stated, fails: of three problems, two share the source X and
    the third is called "DUPLICATE 1000000"; the draw 1000000 makes the
    placeholder equal to that third source, the third problem's entry is
    overwritten, and the Index holds two entries for three problems. *)
Lemma rebuildIndex_placeholder_taken :
  map (fun p : Problem => source p) three_docs = ["DUPLICATE 1000000"; "X"; "X"] /\
  10 ^ 6 <= 1000000 < 10 ^ 7 /\
  dict_keys (index (rebuildIndex (fun _ => 1000000) three_docs initial_stores).1)
    = ["DUPLICATE 1000000"; "X"] /\
  In (first_placeholder (fun _ => 1000000))
     (map (fun p : Problem => source p) three_docs) /\
  ~ In (entry doc_named_like_placeholder)
       (dict_values (index (rebuildIndex (fun _ => 1000000) three_docs initial_stores).1)) /\
  length (rebuildIndex (fun _ => 1000000) three_docs initial_stores).2 = 1%nat.
Proof.
  split; [reflexivity |]. split; [lia |]. split; [reflexivity |].
  split; [left; reflexivity |]. split; [| reflexivity].
  vm_compute. intros [Heq | [Heq | []]]; discriminate Heq.
Qed.

(** C6, amended. If exactly two of the discovered problems share a
    source and the placeholder generated for the later of them is not the
    source of any discovered problem, then rebuildIndex leaves an Index
    that holds an entry for every problem, in discovery order: each
    problem under its own source, the later of the two under the
    placeholder, which is its entry's source; one collision is reported,
    and the Cache is not touched. *)
Theorem rebuildIndex_one_collision (randrange : nat -> Z) (l1 l2 l3 : list Problem)
  (a b : Problem) (st : Stores) :
  source a = source b ->
  NoDup (map (fun p : Problem => source p) (l1 ++ a :: l2 ++ l3)) ->
  ~ In (first_placeholder randrange)
       (map (fun p : Problem => source p) (l1 ++ a :: l2 ++ b :: l3)) ->
  let fake := first_placeholder randrange in
  let out := rebuildIndex randrange (l1 ++ a :: l2 ++ b :: l3) st in
  index out.1 = entry_items (l1 ++ a :: l2 ++ problem_set_source b fake :: l3) /\
  dict_get (source a) (index out.1) = Some (entry a) /\
  dict_get fake (index out.1) = Some (set_source (entry b) fake) /\
  (forall p : Problem, In p (l1 ++ l2 ++ l3) ->
     dict_get (source p) (index out.1) = Some (entry p)) /\
  length (index out.1) = length (l1 ++ a :: l2 ++ b :: l3) /\
  length out.2 = 1%nat /\
  cache out.1 = cache st.
Proof.
  intros Hab Hnd Hfake fake out.
  assert (Hidx : index out.1 =
            entry_items (l1 ++ a :: l2 ++ problem_set_source b fake :: l3)).
  { unfold out, rebuildIndex. cbn [fst setEntireIndex index].
    rewrite (rebuild_loop_one_collision randrange l1 l2 l3 a b Hab Hnd Hfake).
    reflexivity. }
  assert (Hsound : index_sound (index out.1)).
  { unfold out, rebuildIndex. cbn [fst setEntireIndex index].
    apply (rebuild_fold_sound randrange). apply index_sound_empty. }
  destruct Hsound as [Hok _].
  assert (Hget : forall p : Problem,
            In p (l1 ++ a :: l2 ++ problem_set_source b fake :: l3) ->
            dict_get (source p) (index out.1) = Some (entry p)).
  { intros p Hin. apply dict_get_of_In; [exact Hok |].
    rewrite Hidx. apply entry_items_In. exact Hin. }
  split; [exact Hidx |]. split; [| split; [| split; [| split; [| split]]]].
  - apply Hget. rewrite in_app_iff. right. left. reflexivity.
  - apply (Hget (problem_set_source b fake)).
    rewrite in_app_iff. right. right. rewrite in_app_iff. right. left. reflexivity.
  - intros p Hin. apply Hget. rewrite !in_app_iff in Hin. rewrite in_app_iff.
    destruct Hin as [Hin | [Hin | Hin]].
    + left. exact Hin.
    + right. right. rewrite in_app_iff. left. exact Hin.
    + right. right. rewrite in_app_iff. right. right. exact Hin.
  - rewrite Hidx. unfold entry_items. rewrite length_map, !length_app. cbn [length].
    rewrite !length_app. reflexivity.
  - unfold out, rebuildIndex. cbn [snd].
    rewrite (rebuild_loop_one_collision randrange l1 l2 l3 a b Hab Hnd Hfake).
    reflexivity.
  - reflexivity.
Qed.

Lemma rebuildIndex_one_collision_witness :
  dict_keys
    (index (rebuildIndex (fun _ => 1234567)
              [doc_first_x; doc_second_x; doc_named_like_placeholder]
              initial_stores).1)
  = ["X"; "DUPLICATE 1234567"; "DUPLICATE 1000000"].
Proof.
  destruct (rebuildIndex_one_collision (fun _ => 1234567) [] []
              [doc_named_like_placeholder] doc_first_x doc_second_x initial_stores)
    as [Hidx _].
  - reflexivity.
  - apply NoDup_cons. split; [| apply NoDup_singleton].
    intros Hin. apply list_elem_of_singleton in Hin. discriminate.
  - intros [Heq | [Heq | [Heq | []]]]; vm_compute in Heq; discriminate.
  - cbn [app] in Hidx. rewrite Hidx. reflexivity.
Defined.

(** * Further properties *)

(** ** The order of items *)

Lemma key_lt_irrefl (a : Z * Z * string) : key_lt a a = false.
Proof.
  destruct a as [[a1 a2] a3]. unfold key_lt. rewrite !Z.eqb_refl. cbn [negb].
  apply string_ltb_irrefl.
Qed.

Lemma key_eq_false_lt (a b : Z * Z * string) :
  key_eq a b = false -> key_lt a b = true \/ key_lt b a = true.
Proof.
  intros Hne. destruct (key_lt a b) eqn:Eab; [left; reflexivity |].
  destruct (key_lt b a) eqn:Eba; [right; reflexivity |].
  rewrite (key_lt_total a b Eab Eba), key_eq_refl in Hne. discriminate.
Qed.

Lemma key_order_cases (ka kb : Z * Z * string) :
  (key_lt ka kb = true /\ key_eq ka kb = false /\ key_lt kb ka = false) \/
  (key_lt ka kb = false /\ key_eq ka kb = true /\ key_lt kb ka = false) \/
  (key_lt ka kb = false /\ key_eq ka kb = false /\ key_lt kb ka = true).
Proof.
  destruct (key_eq ka kb) eqn:Eeq.
  - apply key_eq_true in Eeq as ->. rewrite key_lt_irrefl. right. left. auto.
  - destruct (key_eq_false_lt ka kb Eeq) as [Hlt | Hlt].
    + left. rewrite Hlt, (key_lt_asym ka kb Hlt). auto.
    + right. right. rewrite Hlt, (key_lt_asym kb ka Hlt). auto.
Qed.

(** X1. Of [a < b], [a == b] and [b < a] exactly one holds, for any two
    items. *)
Theorem item_order_trichotomy `{Rc} (a b : GenericItem) :
  (item_lt a b = true /\ item_eq a b = false /\ item_lt b a = false) \/
  (item_lt a b = false /\ item_eq a b = true /\ item_lt b a = false) \/
  (item_lt a b = false /\ item_eq a b = false /\ item_lt b a = true).
Proof. unfold item_lt, item_eq. apply key_order_cases. Qed.

(** X2. [<] on items is transitive. *)
Theorem item_lt_transitive `{Rc} (a b c : GenericItem) :
  item_lt a b = true -> item_lt b c = true -> item_lt a c = true.
Proof. unfold item_lt. apply key_lt_trans. Qed.

Lemma item_lt_transitive_witness :
  @item_lt rc_sample (mk_entry "P" ["A"] (Some 9)) (mk_entry "P" ["B"] (Some 3)) = true.
Proof.
  apply (@item_lt_transitive rc_sample (mk_entry "P" ["A"] (Some 9))
           (mk_entry "P" ["x"; "B"] None) (mk_entry "P" ["B"] (Some 3)));
    reflexivity.
Defined.

(** X3. The comparisons derived by total_ordering agree with the
    order: [a > b] is [b < a], [a <= b] is [not b < a], and [a >= b] is
    [b <= a]. *)
Theorem derived_comparisons_agree `{Rc} (a b : GenericItem) :
  item_gt a b = item_lt b a /\
  item_le a b = negb (item_lt b a) /\
  item_ge a b = item_le b a.
Proof.
  unfold item_gt, item_le, item_ge, item_ne.
  assert (Hsym : item_eq b a = item_eq a b).
  { destruct (item_eq a b) eqn:E.
    - apply item_eq_iff in E. apply item_eq_iff. symmetry. exact E.
    - destruct (item_eq b a) eqn:E'; [| reflexivity].
      apply item_eq_iff in E'. symmetry in E'. apply item_eq_iff in E'. congruence. }
  rewrite Hsym. unfold item_lt, item_eq.
  destruct (key_order_cases (sortkey a) (sortkey b))
    as [[-> [-> ->]] | [[-> [-> ->]] | [-> [-> ->]]]]; auto.
Qed.

Lemma sortkey_fst `{Rc} (e : GenericItem) : (sortkey e).1.1 = sortvalue e.
Proof. unfold sortkey. destruct (hardness e); reflexivity. Qed.

Lemma key_lt_fst (ka kb : Z * Z * string) : ka.1.1 < kb.1.1 -> key_lt ka kb = true.
Proof.
  destruct ka as [[a1 a2] a3], kb as [[b1 b2] b3]. cbn [fst]. intros Hlt.
  unfold key_lt. destruct (Z.eqb_spec a1 b1); [lia |]. cbn [negb].
  apply Z.ltb_lt. exact Hlt.
Qed.

(** X4. The sort bucket decides first: an item in a lower bucket is
    [<] every item in a higher bucket, whatever the hardness and the
    source of the two. *)
Theorem lower_bucket_sorts_first `{Rc} (a b : GenericItem) :
  sortvalue a < sortvalue b -> item_lt a b = true /\ item_lt b a = false.
Proof.
  intros Hlt. assert (Hab : item_lt a b = true).
  { unfold item_lt. apply key_lt_fst. rewrite !sortkey_fst. exact Hlt. }
  split; [exact Hab | apply key_lt_asym; exact Hab].
Qed.

Lemma lower_bucket_sorts_first_witness :
  @item_lt rc_sample (mk_entry "Z" ["A"] (Some 9)) (mk_entry "A" ["B"] (Some 3)) = true.
Proof.
  apply (@lower_bucket_sorts_first rc_sample (mk_entry "Z" ["A"] (Some 9))
           (mk_entry "A" ["B"] (Some 3))).
  vm_compute. reflexivity.
Defined.

Lemma first_sort_tag_Some (k : Z) (ds ts : list string) (k' : Z) (d : string) :
  first_sort_tag k ds ts = Some (k', d) ->
  exists j : nat,
    k' = k + Z.of_nat j /\ ds !! j = Some d /\ In d ts /\
    forall (j' : nat) (d' : string), (j' < j)%nat -> ds !! j' = Some d' -> ~ In d' ts.
Proof.
  revert k. induction ds as [| d0 ds IH]; intros k; simpl; [discriminate |].
  destruct (list_in d0 ts) eqn:E.
  - intros [= <- <-]. exists 0%nat. split; [lia |]. split; [reflexivity |].
    split; [apply list_in_spec; exact E |]. intros j' d' Hj. lia.
  - intros Hf. destruct (IH (k + 1) Hf) as [j [Hk [Hd [Hin Hbefore]]]].
    exists (S j). split; [lia |]. split; [exact Hd |]. split; [exact Hin |].
    intros [| j'] d' Hj; simpl.
    + intros [= <-] Hin'. apply list_in_spec in Hin'. congruence.
    + apply Hbefore. lia.
Qed.

Lemma first_sort_tag_None (k : Z) (ds ts : list string) :
  first_sort_tag k ds ts = None -> forall d, In d ds -> ~ In d ts.
Proof.
  revert k. induction ds as [| d0 ds IH]; intros k; simpl; [intros _ d [] |].
  destruct (list_in d0 ts) eqn:E; [discriminate |].
  intros Hf d [<- | Hin].
  - intros Hin'. apply list_in_spec in Hin'. congruence.
  - exact (IH (k + 1) Hf d Hin).
Qed.

(** X5. The sort bucket of an item is the index of the first priority
    tag that is among its tags, and [sortstring] is that tag; an item
    with no priority tag has the bucket -1 and the sortstring "NONE". *)
Theorem sortvalue_first_priority_tag `{Rc} (e : GenericItem) :
  (sortvalue e = -1 /\ sortstring e = "NONE" /\
   forall d, In d SORT_TAGS -> ~ In d (tags e)) \/
  (exists (k : nat) (d : string),
     sortvalue e = Z.of_nat k /\ sortstring e = d /\
     SORT_TAGS !! k = Some d /\ In d (tags e) /\
     forall (j : nat) (d' : string),
       (j < k)%nat -> SORT_TAGS !! j = Some d' -> ~ In d' (tags e)).
Proof.
  unfold sortvalue, sortstring.
  destruct (first_sort_tag 0 SORT_TAGS (tags e)) as [[k d] |] eqn:E.
  - right. destruct (first_sort_tag_Some _ _ _ _ _ E) as [j [Hk [Hd [Hin Hbefore]]]].
    exists j, d. split; [lia |]. auto.
  - left. split; [reflexivity |]. split; [reflexivity |].
    exact (first_sort_tag_None _ _ _ E).
Qed.

(** ** Storing into the Index and reading it back *)

Section DictMoreFacts.
Context {V : Type}.
Implicit Types (d : dict V) (k : string) (v : V).

Lemma dict_set_get_other d k k' v : k' <> k -> dict_get k' (dict_set k v d) = dict_get k' d.
Proof.
  intros Hne. induction d as [| [k0 v0] d IH]; simpl.
  - apply String.eqb_neq in Hne. rewrite Hne. reflexivity.
  - destruct (String.eqb k k0) eqn:E; simpl.
    + apply String.eqb_eq in E as <-. apply String.eqb_neq in Hne. rewrite Hne.
      reflexivity.
    + rewrite IH. reflexivity.
Qed.

Lemma dict_set_set d k v v' : dict_set k v (dict_set k v' d) = dict_set k v d.
Proof.
  induction d as [| [k0 v0] d IH]; simpl.
  - rewrite String.eqb_refl. reflexivity.
  - destruct (String.eqb k k0) eqn:E; simpl.
    + rewrite String.eqb_refl. reflexivity.
    + rewrite E, IH. reflexivity.
Qed.

Lemma dict_remove_get_other d k k' : k' <> k -> dict_get k' (dict_remove k d) = dict_get k' d.
Proof.
  intros Hne. induction d as [| [k0 v0] d IH]; simpl; [reflexivity |].
  destruct (String.eqb k k0) eqn:E; simpl.
  - apply String.eqb_eq in E as <-. apply String.eqb_neq in Hne. rewrite Hne.
    reflexivity.
  - rewrite IH. reflexivity.
Qed.

Lemma dict_remove_get d k : dict_ok d -> dict_get k (dict_remove k d) = None.
Proof.
  induction d as [| [k0 v0] d IH]; simpl; [reflexivity |].
  intros Hok. apply dict_ok_cons in Hok as [Hnot Hok].
  destruct (String.eqb k k0) eqn:E; simpl.
  - apply String.eqb_eq in E as ->. apply dict_get_None. exact Hnot.
  - rewrite E. apply IH. exact Hok.
Qed.
End DictMoreFacts.

Lemma getEntryBySource_get (src : string) (st : Stores) :
  getEntryBySource src st = dict_get src (index st).
Proof.
  unfold getEntryBySource, dict_mem. destruct (dict_get src (index st)); reflexivity.
Qed.

(** X6. An entry stored with addEntryToIndex is what getEntryBySource
    returns for its source, and every other source reads as before. *)
Theorem addEntryToIndex_then_lookup (e : PickleMappingEntry) (st : Stores) :
  getEntryBySource (source e) (addEntryToIndex e st) = Some e /\
  forall src, src <> source e ->
    getEntryBySource src (addEntryToIndex e st) = getEntryBySource src st.
Proof.
  split.
  - rewrite getEntryBySource_get. apply dict_set_get.
  - intros src Hne. rewrite !getEntryBySource_get. apply dict_set_get_other. exact Hne.
Qed.

(** X7. Storing twice under one source keeps the last entry only: the
    Index is the same as if the first entry had never been stored. *)
Theorem addEntryToIndex_last_wins (e e' : PickleMappingEntry) (st : Stores) :
  source e = source e' ->
  addEntryToIndex e (addEntryToIndex e' st) = addEntryToIndex e st.
Proof.
  intros Hs. unfold addEntryToIndex. cbn [index cache]. rewrite <- Hs.
  rewrite dict_set_set. reflexivity.
Qed.

Lemma addEntryToIndex_last_wins_witness :
  addEntryToIndex entry_x1 (addEntryToIndex (set_i entry_x1 (Some 4)) stores_x1_x2)
  = addEntryToIndex entry_x1 stores_x1_x2.
Proof.
  apply (addEntryToIndex_last_wins entry_x1 (set_i entry_x1 (Some 4)) stores_x1_x2).
  reflexivity.
Defined.

(** X8. addProblemToIndex returns the entry of the problem, and that
    is what the Index then gives for the problem's source. *)
Theorem addProblemToIndex_returns_stored (p : Problem) (st : Stores) :
  (addProblemToIndex p st).1 = entry p /\
  getEntryBySource (source p) (addProblemToIndex p st).2 = Some (entry p) /\
  cache (addProblemToIndex p st).2 = cache st.
Proof.
  split; [reflexivity |]. split; [| reflexivity].
  rewrite getEntryBySource_get. apply dict_set_get.
Qed.

(** X9. When the new problem has another source than the old entry and
    the old source is not in the Index, updateEntryByProblem raises
    KeyError and leaves both stores as they were. *)
Theorem updateEntryByProblem_missing_old (old_entry : PickleMappingEntry)
  (new_problem : Problem) (st : Stores) :
  source old_entry <> source new_problem ->
  getEntryBySource (source old_entry) st = None ->
  updateEntryByProblem old_entry new_problem st = (Raise KeyError, st).
Proof.
  intros Hne Hmiss. rewrite getEntryBySource_get in Hmiss.
  unfold updateEntryByProblem. cbv zeta.
  change (source (entry (problem_set_i new_problem (i old_entry))))
    with (source new_problem).
  apply String.eqb_neq in Hne. rewrite Hne. cbn [negb].
  unfold dict_del, dict_mem. rewrite Hmiss. reflexivity.
Qed.

Lemma updateEntryByProblem_missing_old_witness :
  updateEntryByProblem (mk_entry "X9" [] None) (problem_of entry_x1) stores_cached
  = (Raise KeyError, stores_cached).
Proof.
  apply (updateEntryByProblem_missing_old (mk_entry "X9" [] None)
           (problem_of entry_x1) stores_cached).
  - discriminate.
  - reflexivity.
Defined.

(** X10. Renaming: when the new problem has another source than the
    old entry and the old source is in the Index, updateEntryByProblem
    succeeds; afterwards the old source is gone from the Index, the new
    source gives the new problem's entry carrying the old entry's [i],
    and every other source reads as before. *)
Theorem updateEntryByProblem_renames (old_entry : PickleMappingEntry)
  (new_problem : Problem) (st : Stores) :
  dict_ok (index st) ->
  source old_entry <> source new_problem ->
  is_Some (getEntryBySource (source old_entry) st) ->
  exists r st',
    updateEntryByProblem old_entry new_problem st = (Ok r, st') /\
    getEntryBySource (source old_entry) st' = None /\
    getEntryBySource (source new_problem) st' =
      Some (set_i (entry new_problem) (i old_entry)) /\
    forall src, src <> source old_entry -> src <> source new_problem ->
      getEntryBySource src st' = getEntryBySource src st.
Proof.
  intros Hok Hne [v Hv]. rewrite getEntryBySource_get in Hv.
  unfold updateEntryByProblem. cbv zeta.
  change (source (entry (problem_set_i new_problem (i old_entry))))
    with (source new_problem).
  pose proof Hne as Hneb. apply String.eqb_neq in Hneb. rewrite Hneb. cbn [negb].
  unfold dict_del, dict_mem. rewrite Hv.
  destruct (cache_update _ _ _) as [l' r]. eexists _, _. split; [reflexivity |].
  rewrite !getEntryBySource_get. cbn [index]. split; [| split].
  - rewrite dict_set_get_other by exact Hne. apply dict_remove_get. exact Hok.
  - apply dict_set_get.
  - intros src Hold Hnew. rewrite !getEntryBySource_get. cbn [index].
    rewrite dict_set_get_other by exact Hnew. apply dict_remove_get_other. exact Hold.
Qed.

Lemma updateEntryByProblem_renames_witness :
  getEntryBySource "X1"
    (updateEntryByProblem entry_x1 (problem_of (mk_entry "Y1" [] None)) stores_cached).2
  = None.
Proof.
  destruct (updateEntryByProblem_renames entry_x1 (problem_of (mk_entry "Y1" [] None))
              stores_cached) as [r [st' [Hrun [Hold _]]]].
  - apply dict_ok_cons. split.
    + intros [Heq | []]. discriminate.
    + apply dict_ok_cons. split; [intros [] | apply NoDup_nil_2].
  - discriminate.
  - exists entry_x1. reflexivity.
  - rewrite Hrun. exact Hold.
Defined.

(** X11. The entry that a successful updateEntryByProblem returns sits
    in the Cache at the position that its [i] names, so its number [n]
    fetches it; the Index holds the same entry with the old entry's [i]
    in place of the new position. *)
Theorem updateEntryByProblem_result_cached (old_entry : PickleMappingEntry)
  (new_problem : Problem) (st st' : Stores) (r : PickleMappingEntry) :
  updateEntryByProblem old_entry new_problem st = (Ok r, st') ->
  exists k : nat,
    i r = Some (Z.of_nat k) /\
    cache st' !! k = Some r /\
    getEntryByCacheNum (Z.of_nat k + 1) st' = Ok r /\
    getEntryBySource (source r) st' = Some (set_i r (i old_entry)).
Proof.
  unfold updateEntryByProblem. cbv zeta.
  set (e0 := entry (problem_set_i new_problem (i old_entry))).
  destruct (if negb _ then _ else _) as [idx | ex]; [| discriminate].
  assert (Hcase : exists k : nat,
            (cache_update (source old_entry) e0 (cache st)).2
              = set_i e0 (Some (Z.of_nat k)) /\
            (cache_update (source old_entry) e0 (cache st)).1 !! k
              = Some (set_i e0 (Some (Z.of_nat k)))).
  { destruct (find_source (source old_entry) (cache st)) as [k |] eqn:Ef.
    - rewrite (cache_update_found _ _ _ _ Ef). exists k. split; [reflexivity |].
      cbn [fst]. apply list_lookup_insert_eq.
      destruct (find_source_Some _ _ _ Ef) as [[e [He _]] _].
      eapply lookup_lt_Some. exact He.
    - rewrite (cache_update_missing _ _ _ Ef). exists (length (cache st)).
      split; [reflexivity |]. cbn [fst].
      rewrite cache_set_lookup, list_lookup_middle; reflexivity. }
  destruct Hcase as [k [Hr Hk]].
  destruct (cache_update (source old_entry) e0 (cache st)) as [l' r'].
  cbn [fst snd] in Hr, Hk. subst r'. intros [= <- <-].
  exists k. split; [reflexivity |]. split; [exact Hk |]. split.
  - apply getEntryByCacheNum_in_range. exact Hk.
  - rewrite getEntryBySource_get. cbn [index].
    change (source (set_i e0 (Some (Z.of_nat k)))) with (source e0).
    rewrite dict_set_get. reflexivity.
Qed.

Lemma updateEntryByProblem_result_cached_witness :
  exists k : nat,
    cache (updateEntryByProblem entry_x1 (problem_of entry_x2) stores_cached).2 !! k
    = Some (set_i entry_x2 (Some (Z.of_nat k))).
Proof.
  destruct (updateEntryByProblem_result_cached entry_x1 (problem_of entry_x2)
              stores_cached
              (updateEntryByProblem entry_x1 (problem_of entry_x2) stores_cached).2
              (set_i entry_x2 (Some 0)) eq_refl) as [k [Hi [Hk _]]].
  exists k. cbn [i set_i] in Hi. injection Hi as Hi. rewrite <- Hi. exact Hk.
Defined.

(** ** Writing the Cache and reading it back *)

Lemma set_i_set_i (e : GenericItem) (a b : option Z) : set_i (set_i e a) b = set_i e b.
Proof. reflexivity. Qed.

Lemma cache_set_fixed (l : list PickleMappingEntry) : positions_agree l -> cache_set l = l.
Proof.
  intros Hpos. apply list_eq. intros p. rewrite cache_set_lookup.
  destruct (l !! p) as [e |] eqn:E; simpl; [| reflexivity].
  rewrite <- (Hpos p e E), set_i_same. reflexivity.
Qed.

Lemma cache_set_absorbs (l1 l2 : list PickleMappingEntry) :
  cache_set (cache_set l1 ++ l2) = cache_set (l1 ++ l2).
Proof.
  apply list_eq. intros p. rewrite !cache_set_lookup.
  destruct (decide (p < length l1)%nat) as [Hlt | Hge].
  - rewrite !lookup_app_l by (rewrite ?cache_set_length; exact Hlt).
    rewrite cache_set_lookup. destruct (l1 !! p); reflexivity.
  - rewrite !lookup_app_r by (rewrite ?cache_set_length; lia).
    rewrite cache_set_length. reflexivity.
Qed.

(** X12. In a Cache whose positions agree, the number [n] of an entry
    is the number that getEntryByCacheNum returns it for. *)
Theorem cache_number_fetches_entry (st : Stores) (k : nat) (e : PickleMappingEntry) :
  positions_agree (cache st) -> cache st !! k = Some e ->
  exists m, n e = Some m /\ getEntryByCacheNum m st = Ok e.
Proof.
  intros Hpos He. exists (Z.of_nat k + 1). split.
  - unfold n. rewrite (Hpos k e He). reflexivity.
  - apply getEntryByCacheNum_in_range. exact He.
Qed.

Lemma cache_number_fetches_entry_witness :
  exists m, n (set_i entry_x1 (Some 0)) = Some m /\
            getEntryByCacheNum m stores_cached = Ok (set_i entry_x1 (Some 0)).
Proof.
  apply (cache_number_fetches_entry stores_cached 0 (set_i entry_x1 (Some 0))).
  - intros [| p] e; simpl; [intros [= <-]; reflexivity | discriminate].
  - reflexivity.
Defined.

(** X13. A list whose entries already carry their own index is stored
    by setCache as it is. *)
Theorem setCache_keeps_numbered_list (l : list PickleMappingEntry) (st : Stores) :
  positions_agree l -> setCache l st = {| index := index st; cache := l |}.
Proof.
  intros Hpos. unfold setCache. f_equal. apply cache_set_fixed. exact Hpos.
Qed.

Lemma setCache_keeps_numbered_list_witness :
  setCache [set_i entry_x1 (Some 0); set_i entry_x2 (Some 1)] stores_x1_x2
  = {| index := index stores_x1_x2;
       cache := [set_i entry_x1 (Some 0); set_i entry_x2 (Some 1)] |}.
Proof.
  apply (setCache_keeps_numbered_list
           [set_i entry_x1 (Some 0); set_i entry_x2 (Some 1)] stores_x1_x2).
  intros [| [| p]] e; simpl; try discriminate; intros [= <-]; reflexivity.
Defined.

(** X14. For pairwise different entries and a Cache that holds no
    entry twice, two augmentCache calls in a row store what one call
    with both lists stores. (Entries that differ are different objects,
    and only those are stamped one by one.) *)
Theorem augmentCache_composes (es1 es2 : list PickleMappingEntry) (st : Stores) :
  NoDup (cache st) -> NoDup (es1 ++ es2) ->
  augmentCache es2 (augmentCache es1 st) = augmentCache (es1 ++ es2) st.
Proof.
  intros _ _. unfold augmentCache. cbn [index cache]. f_equal.
  rewrite cache_set_absorbs, app_assoc. reflexivity.
Qed.

Lemma augmentCache_composes_witness :
  augmentCache [entry_x2] (augmentCache [entry_x1] initial_stores)
  = augmentCache [entry_x1; entry_x2] initial_stores.
Proof.
  apply (augmentCache_composes [entry_x1] [entry_x2] initial_stores).
  - apply NoDup_nil_2.
  - apply NoDup_cons. split; [| apply NoDup_singleton].
    intros Hin. apply list_elem_of_singleton in Hin. discriminate.
Defined.

(** X15. On a Cache whose entries carry their own index, augmentCache
    with pairwise different entries keeps every entry where it is and
    puts the new entries after them, stamped with the indices that
    follow. *)
Theorem augmentCache_appends (es : list PickleMappingEntry) (st : Stores) :
  positions_agree (cache st) -> NoDup es ->
  cache (augmentCache es st) =
    cache st ++
    imap (fun k e => set_i e (Some (Z.of_nat (length (cache st) + k)))) es.
Proof.
  intros Hpos _. cbn [augmentCache cache]. unfold cache_set at 1.
  rewrite imap_app. f_equal. apply cache_set_fixed. exact Hpos.
Qed.

Lemma augmentCache_appends_witness :
  cache (augmentCache [entry_x2] stores_cached) =
    [set_i entry_x1 (Some 0); set_i entry_x2 (Some 1)].
Proof.
  rewrite (augmentCache_appends [entry_x2] stores_cached).
  - reflexivity.
  - intros [| p] e; simpl; [intros [= <-]; reflexivity | discriminate].
  - apply NoDup_singleton.
Defined.

(** ** Searching *)

(** X16. A search over the whole Index can be repeated: run again on
    the stores that it left, it returns the same list and leaves the
    same stores. *)
Theorem runSearch_repeatable `{Rc} (q : Query) (st : Stores) :
  refine q = false ->
  runSearch q (runSearch q st).2 = runSearch q st.
Proof.
  intros Hr. unfold runSearch, scanned. rewrite Hr.
  destruct (index_values (index st)) as [vs | ex] eqn:Ev; cbv zeta.
  - destruct (0 <? length _)%nat eqn:E; cbn [snd].
    + cbn [setCache index]. rewrite Ev, E. reflexivity.
    + rewrite Ev, E. reflexivity.
  - cbn [snd]. rewrite Ev. reflexivity.
Qed.

Lemma runSearch_repeatable_witness :
  @runSearch rc_sample algebra_query (@runSearch rc_sample algebra_query stores_x1_x2).2
  = @runSearch rc_sample algebra_query stores_x1_x2.
Proof. apply (@runSearch_repeatable rc_sample algebra_query stores_x1_x2). reflexivity. Defined.

(** X17. A search of the current Cache, when the Cache is empty,
    returns the empty list and changes nothing, whatever the query
    asks for. *)
Theorem runSearch_refine_empty_cache `{Rc} (q : Query) (st : Stores) :
  refine q = true -> cache st = [] -> runSearch q st = (Ok [], st).
Proof.
  intros Hr Hc. unfold runSearch, scanned, sort_result. rewrite Hr, Hc.
  destruct (alph_sort q); reflexivity.
Qed.

Lemma runSearch_refine_empty_cache_witness :
  @runSearch rc_sample (all_of true) stores_x1_x2 = (Ok [], stores_x1_x2).
Proof.
  apply (@runSearch_refine_empty_cache rc_sample (all_of true) stores_x1_x2); reflexivity.
Defined.

Lemma startswith_empty (s : string) : startswith s "" = true.
Proof. destruct s; reflexivity. Qed.

Lemma matches_no_filter `{Rc} (q : Query) (e : PickleMappingEntry) :
  no_filter q -> matches q e = true.
Proof.
  intros [Ht [Hg [Hs [Ha [Hp Ho]]]]]. apply matches_iff.
  rewrite Ht, Hg, Hs, Ha, Hp. split; [apply otis_ok_unset; left; exact Ho |].
  split; [intros x [] |]. split; [intros x [] |]. split; [intros x [] |].
  split; [intros x [] |]. apply startswith_empty.
Qed.

Lemma filter_all {A} (f : A -> bool) (l : list A) :
  (forall x, In x l -> f x = true) -> List.filter f l = l.
Proof.
  induction l as [| x l IH]; intros Hall; simpl; [reflexivity |].
  rewrite (Hall x (or_introl eq_refl)). f_equal. apply IH.
  intros y Hy. apply Hall. right. exact Hy.
Qed.

(** X18. A search without any filter over the whole of an Index that
    keeps every entry under its own source returns every entry of the
    Index, each once, in the order asked for and stamped with its
    place. *)
Theorem runSearch_no_filter_lists_index `{Rc} (q : Query) (st : Stores) :
  refine q = false -> no_filter q -> dict_ok (index st) -> keys_agree (index st) ->
  exists sorted,
    (runSearch q st).1 = Ok (cache_set sorted) /\
    Permutation sorted (dict_values (index st)) /\
    StronglySorted (in_order q) sorted.
Proof.
  intros Hr Hnf Hok Hkeys.
  destruct (runSearch_full_index q st Hr Hok Hkeys) as [sorted [Hrun [Hperm [_ Hsorted]]]].
  exists sorted. split; [exact Hrun |]. split; [| exact Hsorted].
  rewrite filter_all in Hperm; [exact Hperm |].
  intros e _. apply matches_no_filter. exact Hnf.
Qed.

Lemma runSearch_no_filter_lists_index_witness :
  exists sorted,
    (@runSearch rc_sample (all_of false) stores_x1_x2).1 = Ok (cache_set sorted) /\
    Permutation sorted [entry_x1; entry_x2] /\
    StronglySorted (@in_order rc_sample (all_of false)) sorted.
Proof.
  apply (@runSearch_no_filter_lists_index rc_sample (all_of false) stores_x1_x2).
  - reflexivity.
  - repeat split.
  - exact (proj1 stores_x1_x2_sound).
  - exact (proj2 stores_x1_x2_sound).
Defined.

Lemma append_assoc (a b c : string) : (a +:+ b) +:+ c = a +:+ b +:+ c.
Proof.
  induction a as [| x a IH]; [reflexivity |].
  change (String x ((a +:+ b) +:+ c) = String x (a +:+ b +:+ c)). rewrite IH. reflexivity.
Qed.

Lemma startswith_trans (s p r : string) :
  startswith s p = true -> startswith p r = true -> startswith s r = true.
Proof.
  rewrite !startswith_spec. intros [post1 ->] [post2 ->].
  exists (post2 +:+ post1). apply append_assoc.
Qed.

Lemma forall_incl {A} (P : A -> Prop) (l l' : list A) :
  incl l l' -> (forall x, In x l' -> P x) -> forall x, In x l -> P x.
Proof. intros Hincl Hall x Hx. apply Hall, Hincl, Hx. Qed.

(** X19. Filters only narrow: an entry that passes a query passes
    every query that asks for a part of its terms, tags, sources and
    authors, for a prefix of its path prefix, and for the same usage. *)
Theorem matches_narrower `{Rc} (q' q : Query) (e : PickleMappingEntry) :
  narrower q' q -> matches q' e = true -> matches q e = true.
Proof.
  intros [Ht [Hg [Hs [Ha [Hp Ho]]]]]. rewrite !matches_iff.
  intros [Hotis [Hg' [Ht' [Hs' [Ha' Hp']]]]]. split; [| split; [| split; [| split; [| split]]]].
  - unfold otis_ok, otis_used_sources in *. rewrite <- Ho. exact Hotis.
  - exact (forall_incl _ _ _ Hg Hg').
  - exact (forall_incl _ _ _ Ht Ht').
  - exact (forall_incl _ _ _ Hs Hs').
  - exact (forall_incl _ _ _ Ha Ha').
  - exact (startswith_trans _ _ _ Hp' Hp).
Qed.

Lemma matches_narrower_witness :
  @matches rc_sample (all_of false) entry_x1 = true.
Proof.
  apply (@matches_narrower rc_sample algebra_query (all_of false) entry_x1).
  - unfold narrower. cbn. repeat split; intros x [].
  - reflexivity.
Defined.

(** X20. An entry without author passes no query that names an
    author. *)
Theorem matches_needs_author `{Rc} (q : Query) (e : PickleMappingEntry) :
  author e = None -> authors q <> [] -> matches q e = false.
Proof.
  intros Hnone Hne. destruct (matches q e) eqn:E; [| reflexivity].
  apply matches_iff in E as [_ [_ [_ [_ [Ha _]]]]].
  destruct (authors q) as [| a l]; [congruence |].
  specialize (Ha a (or_introl eq_refl)). unfold hasAuthor in Ha.
  rewrite Hnone in Ha. discriminate.
Qed.

Lemma matches_needs_author_witness :
  @matches rc_sample
    {| terms := []; q_tags := []; sources := []; authors := [""]; q_path := "";
       refine := false; alph_sort := false; in_otis := None |} entry_x1 = false.
Proof.
  apply (@matches_needs_author rc_sample); [reflexivity | discriminate].
Defined.

(** Case of the query words *)

Lemma lower_char_upper_char (c : ascii) : lower_char (upper_char c) = lower_char c.
Proof. destruct c as [[] [] [] [] [] [] [] []]; reflexivity. Qed.

Lemma lower_char_lower_char (c : ascii) : lower_char (lower_char c) = lower_char c.
Proof. destruct c as [[] [] [] [] [] [] [] []]; reflexivity. Qed.

Lemma lower_upper (s : string) : lower (upper s) = lower s.
Proof.
  induction s as [| c s IH]; simpl; [reflexivity |].
  rewrite lower_char_upper_char, IH. reflexivity.
Qed.

Lemma lower_lower (s : string) : lower (lower s) = lower s.
Proof.
  induction s as [| c s IH]; simpl; [reflexivity |].
  rewrite lower_char_lower_char, IH. reflexivity.
Qed.

(** X21. The tag, source and author filters do not look at the case of
    the word asked for: its uppercase and its lowercase form pass on
    exactly the entries that the word passes on. *)
Theorem filters_ignore_case `{Rc} (e : PickleMappingEntry) (w : string) :
  (hasTag e (upper w) = hasTag e w /\ hasTag e (lower w) = hasTag e w) /\
  (hasSource e (upper w) = hasSource e w /\ hasSource e (lower w) = hasSource e w) /\
  (hasAuthor e (upper w) = hasAuthor e w /\ hasAuthor e (lower w) = hasAuthor e w).
Proof.
  unfold hasTag, hasSource, hasAuthor. rewrite lower_upper, lower_lower.
  destruct (author e); auto.
Qed.

Lemma lower_append (a b : string) : lower (a +:+ b) = lower a +:+ lower b.
Proof.
  induction a as [| x a IH]; [reflexivity |].
  change (String (lower_char x) (lower (a +:+ b))
          = String (lower_char x) (lower a +:+ lower b)).
  rewrite IH. reflexivity.
Qed.

Lemma occurs_in_refl (s : string) : occurs_in s s.
Proof. exists EmptyString, EmptyString. simpl. symmetry. apply append_nil_r. Qed.

Lemma occurs_in_app_l (sub a b : string) : occurs_in sub a -> occurs_in sub (a +:+ b).
Proof.
  intros [pre [post ->]]. exists pre, (post +:+ b).
  rewrite !append_assoc. reflexivity.
Qed.

Lemma occurs_in_app_r (sub a b : string) : occurs_in sub b -> occurs_in sub (a +:+ b).
Proof.
  intros [pre [post ->]]. exists (a +:+ pre), post.
  rewrite !append_assoc. reflexivity.
Qed.

(** X22. Every entry is found by its own words: a term that is, up to
    case, the source, the description or the author of an entry, or
    that is one of its tags as written, passes the term filter on it;
    so does the empty term. *)
Theorem hasTerm_finds_own_words `{Rc} (e : PickleMappingEntry) (term : string) :
  lower term = lower (source e) \/ lower term = lower (desc e) \/
  (exists a, author e = Some a /\ lower term = lower a) \/
  In term (tags e) \/ term = "" ->
  hasTerm e term = true.
Proof.
  intros Hcase. apply hasTerm_cases.
  assert (Hsrc : occurs_in (lower (source e)) (lower (blob e))).
  { rewrite blob_text. destruct (author e); rewrite !lower_append;
      repeat apply occurs_in_app_l; apply occurs_in_refl. }
  assert (Hdesc : occurs_in (lower (desc e)) (lower (blob e))).
  { rewrite blob_text. destruct (author e); rewrite !lower_append.
    - apply occurs_in_app_l, occurs_in_app_r, occurs_in_app_r, occurs_in_refl.
    - apply occurs_in_app_r, occurs_in_app_r, occurs_in_refl. }
  destruct Hcase as [-> | [-> | [[a [Ha ->]] | [Hin | ->]]]].
  - left. exact Hsrc.
  - left. exact Hdesc.
  - left. rewrite blob_text, Ha, !lower_append.
    apply occurs_in_app_r, occurs_in_app_r, occurs_in_refl.
  - right. left. exact Hin.
  - left. exists EmptyString, (lower (blob e)). reflexivity.
Qed.

Lemma hasTerm_finds_own_words_witness :
  @hasTerm rc_sample eq_left "FIENDISH INEQUALITY" = true.
Proof.
  apply (@hasTerm_finds_own_words rc_sample eq_left "FIENDISH INEQUALITY").
  right. left. reflexivity.
Defined.

(** ** Rebuilding *)

(** X23. When the sources of the problems are pairwise different,
    rebuildIndex stores the entry of every problem under its source, in
    discovery order, reports nothing, and leaves the Cache alone. *)
Theorem rebuildIndex_distinct_sources (randrange : nat -> Z) (problems : list Problem)
  (st : Stores) :
  NoDup (map (fun p : Problem => source p) problems) ->
  rebuildIndex randrange problems st =
    ({| index := entry_items problems; cache := cache st |}, []).
Proof.
  intros Hnd. unfold rebuildIndex, rebuild_loop.
  rewrite (rebuild_fold_fresh randrange problems); [reflexivity | exact Hnd |].
  intros p _ [].
Qed.

Lemma rebuildIndex_distinct_sources_witness :
  rebuildIndex (fun _ => 1000000) [doc_first_x; doc_named_like_placeholder] stores_cached
  = ({| index := entry_items [doc_first_x; doc_named_like_placeholder];
        cache := cache stores_cached |}, []).
Proof.
  apply (rebuildIndex_distinct_sources (fun _ => 1000000)
           [doc_first_x; doc_named_like_placeholder] stores_cached).
  apply NoDup_cons. split; [| apply NoDup_singleton].
  intros Hin. apply list_elem_of_singleton in Hin. discriminate.
Defined.

Section RebuildFresh.
Variable randrange : nat -> Z.
Variable all_sources : list string.
Variable draws : nat.
Hypothesis placeholder_new :
  forall k, (k < draws)%nat -> ~ In (placeholder randrange k) all_sources.
Hypothesis placeholder_inj :
  forall j k, (j < draws)%nat -> (k < draws)%nat -> j <> k ->
    placeholder randrange j <> placeholder randrange k.

Lemma rebuild_step_appends (s : rebuild_state) (p : Problem) :
  keys_known randrange all_sources s -> In (source p) all_sources ->
  (rb_calls s < draws)%nat ->
  exists kv,
    stands_for randrange p kv /\
    rb_d (rebuild_step randrange s p) = rb_d s ++ [kv] /\
    keys_known randrange all_sources (rebuild_step randrange s p) /\
    (rb_calls (rebuild_step randrange s p) <= S (rb_calls s))%nat.
Proof.
  intros Hknown Hsrc Hcalls.
  destruct (dict_mem (source p) (rb_d s)) eqn:Emem.
  - apply dict_mem_true in Emem.
    assert (Hfake : ~ In (placeholder randrange (rb_calls s)) (dict_keys (rb_d s))).
    { intros Hin. destruct (Hknown _ Hin) as [Hs | [k [Hk Heq]]].
      - exact (placeholder_new _ Hcalls Hs).
      - apply (placeholder_inj (rb_calls s) k); [lia | lia | lia | exact Heq]. }
    rewrite (rebuild_step_collision randrange s p Emem Hfake). cbn [rb_d rb_calls].
    eexists. split; [| split; [reflexivity | split; [| lia]]].
    + split; [reflexivity |]. right. exists (rb_calls s). reflexivity.
    + intros key. cbn [rb_d rb_calls]. unfold dict_keys. rewrite map_app, in_app_iff.
      cbn [map In fst]. intros [Hin | [<- | []]].
      * destruct (Hknown _ Hin) as [Hs | [k [Hk Heq]]]; [left; exact Hs |].
        right. exists k. split; [lia | exact Heq].
      * right. exists (rb_calls s). split; [lia | reflexivity].
  - apply dict_mem_false in Emem.
    rewrite (rebuild_step_fresh randrange s p Emem). cbn [rb_d rb_calls].
    exists (source p, entry p). split; [| split; [reflexivity | split; [| lia]]].
    + split; [reflexivity | left; reflexivity].
    + intros key. cbn [rb_d rb_calls]. unfold dict_keys. rewrite map_app, in_app_iff.
      cbn [map In fst]. intros [Hin | [<- | []]].
      * exact (Hknown _ Hin).
      * left. exact Hsrc.
Qed.

Lemma rebuild_fold_appends (ps done : list Problem) (s : rebuild_state) :
  keys_known randrange all_sources s ->
  (forall p : Problem, In p ps -> In (source p) all_sources) ->
  (rb_calls s + length ps <= draws)%nat ->
  Forall2 (stands_for randrange) done (rb_d s) ->
  Forall2 (stands_for randrange) (done ++ ps)
    (rb_d (fold_left (rebuild_step randrange) ps s)).
Proof.
  revert done s. induction ps as [| p ps IH]; intros done s Hknown Hsrc Hcalls Hdone.
  - simpl. rewrite app_nil_r. exact Hdone.
  - cbn [length] in Hcalls. cbn [fold_left].
    destruct (rebuild_step_appends s p Hknown (Hsrc p (or_introl eq_refl)))
      as [kv [Hkv [Hd [Hknown' Hcalls']]]]; [lia |].
    replace (done ++ p :: ps) with ((done ++ [p]) ++ ps)
      by (rewrite <- app_assoc; reflexivity).
    apply IH; [exact Hknown' | | lia |].
    + intros p' Hin. apply Hsrc. right. exact Hin.
    + rewrite Hd. apply Forall2_app; [exact Hdone |]. constructor; [exact Hkv | constructor].
Qed.
End RebuildFresh.

(** X24. No problem is dropped as long as the placeholders are new:
    when none of the placeholders that the first draws give (one draw
    per problem at most) is the source of a problem, and different draws
    give different placeholders, the items of the rebuilt Index stand
    one for one, in discovery order, for the problems; each holds the
    entry of its problem under the problem's source or under a
    placeholder. *)
Theorem rebuildIndex_keeps_every_problem (randrange : nat -> Z) (problems : list Problem)
  (st : Stores) :
  (forall k, (k < length problems)%nat ->
     ~ In (placeholder randrange k) (map (fun p : Problem => source p) problems)) ->
  (forall j k, (j < length problems)%nat -> (k < length problems)%nat -> j <> k ->
     placeholder randrange j <> placeholder randrange k) ->
  Forall2 (stands_for randrange) problems (index (rebuildIndex randrange problems st).1) /\
  length (index (rebuildIndex randrange problems st).1) = length problems.
Proof.
  intros Hnew Hinj.
  assert (Hall : Forall2 (stands_for randrange) problems
                   (index (rebuildIndex randrange problems st).1)).
  { unfold rebuildIndex, rebuild_loop. cbn [fst setEntireIndex index].
    apply (rebuild_fold_appends randrange
             (map (fun p : Problem => source p) problems) (length problems)
             Hnew Hinj problems []).
    - intros key [].
    - intros p Hin. apply (in_map (fun p : Problem => source p)). exact Hin.
    - cbn [rb_calls]. lia.
    - constructor. }
  split; [exact Hall |]. symmetry. eapply Forall2_length. exact Hall.
Qed.

Lemma rebuildIndex_keeps_every_problem_witness :
  length (index (rebuildIndex (fun k => 2000000 + Z.of_nat k)
                   [doc_first_x; doc_second_x; doc_second_x] initial_stores).1) = 3%nat.
Proof.
  apply (rebuildIndex_keeps_every_problem (fun k => 2000000 + Z.of_nat k)
           [doc_first_x; doc_second_x; doc_second_x] initial_stores).
  - intros k Hk. destruct k as [| [| [| k]]]; [| | | cbn [length] in Hk; lia];
      vm_compute; intros [Heq | [Heq | [Heq | []]]]; discriminate.
  - intros j k Hj Hk Hjk. cbn [length] in Hj, Hk.
    destruct j as [| [| [| j]]]; [| | | lia];
      (destruct k as [| [| [| k]]]; [| | | lia]);
      try lia; vm_compute; discriminate.
Defined.

Lemma dict_set_length {V} (d : dict V) (k : string) (v : V) :
  length (dict_set k v d) = if dict_mem k d then length d else S (length d).
Proof.
  rewrite <- !(length_map fst). fold (dict_keys (dict_set k v d)). fold (dict_keys d).
  rewrite dict_set_keys. destruct (dict_mem k d); [reflexivity |].
  rewrite length_app. simpl. lia.
Qed.

Lemma rebuild_step_counts (randrange : nat -> Z) (s : rebuild_state) (p : Problem) :
  length (rb_errors s) = rb_calls s ->
  length (rb_errors (rebuild_step randrange s p)) = rb_calls (rebuild_step randrange s p) /\
  (rb_calls (rebuild_step randrange s p) <= S (rb_calls s))%nat /\
  (length (rb_d s) <= length (rb_d (rebuild_step randrange s p)) <= S (length (rb_d s)))%nat.
Proof.
  intros Herr. unfold rebuild_step.
  destruct (dict_mem (source p) (rb_d s)); cbn [rb_d rb_calls rb_errors];
    rewrite dict_set_length, ?length_app; cbn [length];
    (split; [lia |]; split; [lia |]);
    match goal with |- context [dict_mem ?k ?d] => destruct (dict_mem k d) end; lia.
Qed.

Lemma rebuild_fold_counts (randrange : nat -> Z) (ps : list Problem) (s : rebuild_state) :
  length (rb_errors s) = rb_calls s ->
  let s' := fold_left (rebuild_step randrange) ps s in
  length (rb_errors s') = rb_calls s' /\
  (rb_calls s' <= rb_calls s + length ps)%nat /\
  (length (rb_d s) <= length (rb_d s') <= length (rb_d s) + length ps)%nat.
Proof.
  revert s. induction ps as [| p ps IH]; intros s Herr; cbn [fold_left length].
  - cbv zeta. lia.
  - destruct (rebuild_step_counts randrange s p Herr) as [Herr' [Hcalls Hlen]].
    specialize (IH _ Herr'). cbv zeta in *. lia.
Qed.

(** X25. rebuildIndex never stores more entries than there are
    problems and reports at most one collision per problem; from one
    problem or more it leaves an Index that is not empty; it never
    touches the Cache. *)
Theorem rebuildIndex_bounds (randrange : nat -> Z) (problems : list Problem) (st : Stores) :
  (length (index (rebuildIndex randrange problems st).1) <= length problems)%nat /\
  (length (rebuildIndex randrange problems st).2 <= length problems)%nat /\
  (problems <> [] -> index (rebuildIndex randrange problems st).1 <> []) /\
  cache (rebuildIndex randrange problems st).1 = cache st.
Proof.
  unfold rebuildIndex, rebuild_loop. cbn [fst snd setEntireIndex index cache].
  pose proof (rebuild_fold_counts randrange problems
                {| rb_d := []; rb_calls := 0; rb_errors := [] |} eq_refl) as Hall.
  cbv zeta in Hall. cbn [rb_d rb_calls rb_errors length] in Hall.
  split; [lia |]. split; [lia |]. split; [| reflexivity].
  destruct problems as [| p ps]; [congruence |]. intros _ Hnil. cbn [fold_left] in Hnil.
  pose proof (rebuild_fold_counts randrange ps
                (rebuild_step randrange {| rb_d := []; rb_calls := 0; rb_errors := [] |} p)
                eq_refl) as Hrest.
  cbv zeta in Hrest. rewrite Hnil in Hrest. cbn in Hrest. lia.
Qed.

(** ** Keys *)

Lemma all_decimal_string_of_uint (d : Decimal.uint) :
  all_decimal (NilEmpty.string_of_uint d) = true.
Proof. induction d; simpl; try reflexivity; exact IHd. Qed.

Lemma all_decimal_digits (s : string) : all_decimal s = true -> all_digits s = true.
Proof.
  induction s as [| c s IH]; [reflexivity |]. cbn [all_decimal all_digits].
  rewrite !andb_true_iff. intros [Hc Hs]. split; [| apply IH; exact Hs].
  unfold is_digit. rewrite Hc. reflexivity.
Qed.

Lemma str_of_int_nonneg (m : Z) :
  0 <= m ->
  isdigit (str_of_int m) = true /\ all_decimal (str_of_int m) = true /\
  NilEmpty.uint_of_string (str_of_int m) = Some (N.to_uint (Z.to_N m)) /\
  Z.of_uint (N.to_uint (Z.to_N m)) = m.
Proof.
  intros Hm. destruct m as [| p | p]; [repeat split | | lia].
  unfold str_of_int. cbn [Z.to_int NilZero.string_of_int].
  pose proof (DecimalPos.Unsigned.to_uint_nonnil p) as Hnn.
  assert (Hs : NilZero.string_of_uint (Pos.to_uint p)
               = NilEmpty.string_of_uint (Pos.to_uint p)).
  { unfold NilZero.string_of_uint. destruct (Pos.to_uint p); [congruence | reflexivity ..]. }
  rewrite Hs. pose proof (all_decimal_string_of_uint (Pos.to_uint p)) as Hd.
  split; [| split; [exact Hd | split]].
  - unfold isdigit. pose proof (all_decimal_digits _ Hd) as Hd'.
    destruct (Pos.to_uint p); [congruence | exact Hd' ..].
  - apply NilEmpty.usu.
  - unfold Z.of_uint. cbn [Z.to_N N.to_uint]. rewrite DecimalPos.Unsigned.of_to. reflexivity.
Qed.

(** X26. A number of the Cache written in decimal, with no more digits
    than the interpreter converts, is a key that getEntryByKey answers
    from the Cache as getEntryByCacheNum answers the number. *)
Theorem getEntryByKey_decimal (max_str_digits : nat) (m : Z) (st : Stores) :
  0 <= m ->
  max_str_digits = 0%nat \/ (String.length (str_of_int m) <= max_str_digits)%nat ->
  getEntryByKey max_str_digits (str_of_int m) st =
    match getEntryByCacheNum m st with
    | Ok e => KeyReturn (Some e)
    | Raise ex => KeyRaise ex
    end.
Proof.
  intros Hm Hlen. destruct (str_of_int_nonneg m Hm) as [Hd [Hdec [Hparse Hval]]].
  unfold getEntryByKey, int_of_str. rewrite Hd, Hdec, Hparse, Hval.
  assert (Hlim : ((max_str_digits =? 0)%nat
                  || (String.length (str_of_int m) <=? max_str_digits)%nat) = true).
  { apply orb_true_iff. destruct Hlen as [-> | Hle]; [left; reflexivity |].
    right. apply Nat.leb_le. exact Hle. }
  rewrite Hlim. reflexivity.
Qed.

Lemma getEntryByKey_decimal_witness :
  getEntryByKey 4300 "1" stores_cached = KeyReturn (Some (set_i entry_x1 (Some 0))).
Proof.
  apply (getEntryByKey_decimal 4300 1 stores_cached); [lia |].
  right. vm_compute. lia.
Defined.

(** X27. A key that consists of digits is never looked up in the
    Index: with an empty Cache getEntryByKey raises IndexError, or the
    ValueError of [int], whatever the Index holds under that key. *)
Theorem getEntryByKey_digits_skip_index (max_str_digits : nat) (key : string)
  (st : Stores) :
  isdigit key = true -> cache st = [] ->
  getEntryByKey max_str_digits key st = KeyRaise IndexError \/
  getEntryByKey max_str_digits key st = KeyValueError.
Proof.
  intros Hd Hc. unfold getEntryByKey. rewrite Hd.
  destruct (int_of_str max_str_digits key) as [num |]; [left | right; reflexivity].
  rewrite getEntryByCacheNum_far; [reflexivity |]. rewrite Hc. cbn [length]. lia.
Qed.

Lemma getEntryByKey_digits_skip_index_witness :
  getEntryBySource "2024" (addEntryToIndex (mk_entry "2024" [] None) initial_stores)
    = Some (mk_entry "2024" [] None) /\
  (getEntryByKey 4300 "2024" (addEntryToIndex (mk_entry "2024" [] None) initial_stores)
     = KeyRaise IndexError \/
   getEntryByKey 4300 "2024" (addEntryToIndex (mk_entry "2024" [] None) initial_stores)
     = KeyValueError).
Proof.
  split; [reflexivity |].
  apply (getEntryByKey_digits_skip_index 4300 "2024"); reflexivity.
Defined.

Lemma getEntryBySource_after_add_witness :
  getEntryBySource "X2" (addEntryToIndex (set_i entry_x1 (Some 4)) stores_x1_x2)
  = Some entry_x2.
Proof.
  rewrite (proj2 (addEntryToIndex_then_lookup (set_i entry_x1 (Some 4)) stores_x1_x2) "X2").
  - reflexivity.
  - discriminate.
Defined.

Lemma rebuildIndex_bounds_witness :
  index (rebuildIndex (fun _ => 1000000) three_docs initial_stores).1 <> [].
Proof.
  apply (rebuildIndex_bounds (fun _ => 1000000) three_docs initial_stores).
  discriminate.
Defined.

(** ** Listing a directory *)

Lemma view_scan_problems (listing : list DirItem) :
  (view_scan listing).1 = map problem_at (List.filter is_tex_file listing).
Proof.
  induction listing as [| it rest IH]; [reflexivity |].
  cbn [view_scan List.filter]. destruct (view_scan rest) as [problems dirs].
  unfold is_tex_file at 1. cbn [fst] in IH.
  destruct (isfile it && endswith (abs_item_path it) ".tex"); cbn [fst map].
  - rewrite IH. reflexivity.
  - destruct (isdir it); exact IH.
Qed.

Lemma view_scan_dirs (listing : list DirItem) :
  (view_scan listing).2 = map item_path (List.filter is_listed_dir listing).
Proof.
  induction listing as [| it rest IH]; [reflexivity |].
  cbn [view_scan List.filter]. destruct (view_scan rest) as [problems dirs].
  unfold is_listed_dir at 1, is_tex_file. cbn [snd] in IH.
  destruct (isfile it && endswith (abs_item_path it) ".tex"); cbn [negb andb snd].
  - exact IH.
  - destruct (isdir it); cbn [snd map]; [rewrite IH; reflexivity | exact IH].
Qed.

(** X28. viewDirectory returns the entries of the TeX files of the
    listing, each once, in the order of items and stamped with its
    place; if there is such a file the Cache becomes that list, and if
    there is none both stores stay as they were. The Index is not
    written. *)
Theorem viewDirectory_entries `{Rc} (listing : list DirItem) (st : Stores) :
  exists sorted,
    Permutation sorted
      (map (fun it => entry (problem_at it)) (List.filter is_tex_file listing)) /\
    StronglySorted (fun a b => item_lt b a = false) sorted /\
    (viewDirectory listing st).1.1 = cache_set sorted /\
    index (viewDirectory listing st).2 = index st /\
    (List.filter is_tex_file listing <> [] ->
       cache (viewDirectory listing st).2 = cache_set sorted) /\
    (List.filter is_tex_file listing = [] -> (viewDirectory listing st).2 = st).
Proof.
  unfold viewDirectory.
  pose proof (view_scan_problems listing) as Hp.
  destruct (view_scan listing) as [problems dirs]. cbn [fst] in Hp. subst problems.
  rewrite map_map.
  set (es := map (fun it => entry (problem_at it)) (List.filter is_tex_file listing)).
  exists (list_sort item_lt es). split; [apply list_sort_perm |]. split.
  { apply (list_sort_sorted item_lt).
    - intros a b. apply key_lt_asym.
    - intros a b c. unfold item_lt.
      apply (not_after_trans key_lt key_lt_trans key_lt_total). }
  assert (Hlen : length (list_sort item_lt es) = length (List.filter is_tex_file listing)).
  { rewrite (Permutation_length (list_sort_perm item_lt es)). unfold es.
    apply length_map. }
  cbv zeta. destruct (0 <? length (list_sort item_lt es))%nat eqn:E.
  - cbn [fst snd setCache index cache]. split; [reflexivity |]. split; [reflexivity |].
    split; [reflexivity |]. intros Hnil. rewrite Hnil in Hlen. cbn in Hlen.
    rewrite Hlen in E. discriminate.
  - cbn [fst snd]. rewrite (length_zero_nil _ E). split; [reflexivity |].
    split; [reflexivity |]. split; [| reflexivity].
    intros Hne. exfalso. apply Hne. apply length_zero_nil.
    rewrite <- Hlen. exact E.
Qed.

Lemma viewDirectory_entries_witness :
  cache (@viewDirectory rc_sample listing_sample stores_x1_x2).2
  = [set_i entry_x1 (Some 0)].
Proof.
  destruct (@viewDirectory_entries rc_sample listing_sample stores_x1_x2)
    as [sorted [_ [_ [Hres [_ [Hcache _]]]]]].
  rewrite Hcache; [| discriminate]. rewrite <- Hres. reflexivity.
Defined.

(** X29. The directory names that viewDirectory returns are the names
    of the listing that are directories and not TeX files, each once,
    in ascending order. *)
Theorem viewDirectory_dirs `{Rc} (listing : list DirItem) (st : Stores) :
  Permutation (viewDirectory listing st).1.2
    (map item_path (List.filter is_listed_dir listing)) /\
  StronglySorted (fun a b => String.ltb b a = false) (viewDirectory listing st).1.2.
Proof.
  unfold viewDirectory.
  pose proof (view_scan_dirs listing) as Hd.
  destruct (view_scan listing) as [problems dirs]. cbn [snd] in Hd. subst dirs.
  cbv zeta. destruct (0 <? length _)%nat; cbn [fst snd].
  - split; [apply list_sort_perm |]. apply (list_sort_sorted String.ltb).
    + apply string_ltb_asym.
    + apply (not_after_trans String.ltb string_ltb_trans string_ltb_total).
  - split; [apply list_sort_perm |]. apply (list_sort_sorted String.ltb).
    + apply string_ltb_asym.
    + apply (not_after_trans String.ltb string_ltb_trans string_ltb_total).
Qed.

(** ** Searching, then fetching by number *)

(** X30. After a search that returned a list, the [k]-th entry of the
    list (counted from 1) is what getEntryByCacheNum returns for the
    number [k]. *)
Theorem runSearch_then_fetch `{Rc} (q : Query) (st st' : Stores)
  (res : list PickleMappingEntry) (k : nat) (e : PickleMappingEntry) :
  runSearch q st = (Ok res, st') -> res !! k = Some e ->
  getEntryByCacheNum (Z.of_nat k + 1) st' = Ok e.
Proof.
  unfold runSearch. destruct (scanned q st) as [vs | ex]; [| discriminate].
  cbv zeta. destruct (0 <? length _)%nat eqn:E.
  - intros [= <- <-] Hk. apply getEntryByCacheNum_in_range. exact Hk.
  - intros [= <- <-] Hk. rewrite (length_zero_nil _ E) in Hk. discriminate.
Qed.

Lemma runSearch_then_fetch_witness :
  getEntryByCacheNum 1 (@runSearch rc_sample algebra_query stores_x1_x2).2
  = Ok (set_i entry_x1 (Some 0)).
Proof.
  apply (@runSearch_then_fetch rc_sample algebra_query stores_x1_x2
           (@runSearch rc_sample algebra_query stores_x1_x2).2
           [set_i entry_x1 (Some 0)] 0 (set_i entry_x1 (Some 0)));
    reflexivity.
Defined.
